(** * Activation kernels of [tensorflow/core/kernels]: a shallow embedding

    The development follows the two source files

    - [relu_op_functor.h]: the element-wise functors ([Relu6], [Relu6Grad],
      [LeakyRelu], ...), parametric in the scalar type [T];
    - [relu_op_gpu.cu.cc]: the device kernels ([ReluGradHalfKernel],
      [ReluGradHalfKernelVector], [Relu_int8x4_kernel], [Quant8FwdKernel]
      and its two specialisations) and their host launchers.

    Machine integers are [Z] with the wrap-around written out, IEEE scalars
    are [spec_float] (the format-parametric model of the standard library),
    device memory is a function from element offsets to values and a kernel
    thread returns the list of stores it performs. *)

From Stdlib Require Import ZArith List Bool Lia String Finite.
From Stdlib Require Import Floats.SpecFloat.
Import ListNotations.

Local Open Scope Z_scope.

(** ** Machine integers *)

Module Int.

(** [uint32_t] arithmetic is modulo [2^32]. *)
Definition u32 (z : Z) : Z := z mod 2 ^ 32.

(** [int32] values, two's complement. *)
Definition i32 (z : Z) : Z := (z + 2 ^ 31) mod 2 ^ 32 - 2 ^ 31.

(** [Eigen::divup(x, y)] is [(x + y - 1) / y] on [int32] operands: the
    sum wraps around and the division truncates. *)
Definition divup (x y : Z) : Z := Z.quot (i32 (x + y - 1)) y.

End Int.

(** ** Packed int8 ReLU: one 32-bit word, four signed lanes *)

Module Int8x4.

(** The [#else] branch of the body of [Relu_int8x4_kernel]: [w] is the
    value of [input[index]] (an [int32]); the result is the value stored
    to [output[index]].  [~w & 0x80808080] converts [~w] to [uint32]
    before masking, and every later step is [uint32] arithmetic. *)
Definition relu_word (w : Z) : Z :=
  let signs := Z.land (Int.u32 (Z.lnot w)) 0x80808080 in
  let signs := Z.shiftr signs 7 in
  let signs := Z.lor signs (Int.u32 (Z.shiftl signs 1)) in
  let signs := Z.lor signs (Int.u32 (Z.shiftl signs 2)) in
  let signs := Z.lor signs (Int.u32 (Z.shiftl signs 4)) in
  let signs := Z.land signs 0x7f7f7f7f in
  Int.i32 (Z.land (Int.u32 w) signs).

(** The scalar reference the specification compares with: lane [k] of
    the word read as a signed 8-bit integer, [max(b, 0)] on each lane,
    the four results packed again. *)
Definition lane (w k : Z) : Z := Z.land (Z.shiftr w (8 * k)) 0xFF.

Definition int8_of_byte (b : Z) : Z := if b <? 128 then b else b - 256.

Definition byte_of_int8 (v : Z) : Z := v mod 256.

Definition relu_int8 (b : Z) : Z := byte_of_int8 (Z.max (int8_of_byte b) 0).

Definition pack (b0 b1 b2 b3 : Z) : Z :=
  Int.i32 (Z.lor b0 (Z.lor (Z.shiftl b1 8)
                           (Z.lor (Z.shiftl b2 16) (Z.shiftl b3 24)))).

Definition relu_word_ref (w : Z) : Z :=
  pack (relu_int8 (lane w 0)) (relu_int8 (lane w 1))
       (relu_int8 (lane w 2)) (relu_int8 (lane w 3)).

End Int8x4.

(** ** IEEE scalars

    The scalar type [T] of the functors is [float] or [Eigen::half].  Both
    are modelled by [spec_float], the standard library's format-parametric
    IEEE model (round to nearest even, signed zeros, infinities, one NaN:
    payloads are not represented).  A format is the pair (precision,
    exponent of the infinities). *)

Module IEEE.

Record format : Set := { prec : Z; emax : Z }.

Definition binary16 : format := {| prec := 11; emax := 16 |}.
Definition binary32 : format := {| prec := 24; emax := 128 |}.

Section Ops.
Variable fmt : format.

(** [static_cast<T>(n)] for an integer literal [n]. *)
Definition of_Z (n : Z) : spec_float :=
  binary_normalize (prec fmt) (emax fmt) n 0 false.

(** [m * 2^e], rounded: used to write literals such as [0.5]. *)
Definition of_scaled (m e : Z) : spec_float :=
  binary_normalize (prec fmt) (emax fmt) m e false.

(** [.cast<T>()] of a boolean expression: [true] is [1], [false] is [0]. *)
Definition of_bool (b : bool) : spec_float := if b then of_Z 1 else of_Z 0.

Definition mul (a b : spec_float) : spec_float :=
  SFmul (prec fmt) (emax fmt) a b.

(** [a > b] and [a < b]; both are false when an operand is NaN. *)
Definition gt (a b : spec_float) : bool := SFltb b a.
Definition lt (a b : spec_float) : bool := SFltb a b.

Definition is_nan (a : spec_float) : bool :=
  match a with S754_nan => true | _ => false end.

(** A value of the format: the mantissa is canonical and the exponent in
    range. *)
Definition valid (a : spec_float) : bool :=
  valid_binary (prec fmt) (emax fmt) a.

End Ops.

End IEEE.

(** ** [relu_op_functor.h]

    Every functor assigns an element-wise expression to its output tensor;
    the element function comes first, the tensor-level functor maps it over
    the flat buffers. *)

Module Functor.

Section Scalar.
Variable fmt : IEEE.format.

Local Abbreviation T := spec_float.

(** Eigen's [cwiseMax<PropagateNaN>] and [cwiseMin<PropagateNaN>] on
    scalars: a NaN operand is returned, otherwise [std::max] and
    [std::min], that is [(a < b) ? b : a] and [(b < a) ? b : a]. *)
Definition cwiseMax_PropagateNaN (a b : T) : T :=
  if IEEE.is_nan a then a
  else if IEEE.is_nan b then b
  else if IEEE.lt a b then b else a.

Definition cwiseMin_PropagateNaN (a b : T) : T :=
  if IEEE.is_nan a then a
  else if IEEE.is_nan b then b
  else if IEEE.lt b a then b else a.

(** [Relu]: [features.cwiseMax<PropagateNaN>(static_cast<T>(0))]. *)
Definition Relu_elem (x : T) : T :=
  cwiseMax_PropagateNaN x (IEEE.of_Z fmt 0).

(** [ReluGrad]: [gradients * (features > 0).cast<T>()]. *)
Definition ReluGrad_elem (g x : T) : T :=
  IEEE.mul fmt g (IEEE.of_bool fmt (IEEE.gt x (IEEE.of_Z fmt 0))).

(** [Relu6]: [cwiseMax(0)] then [cwiseMin(6)]. *)
Definition Relu6_elem (x : T) : T :=
  cwiseMin_PropagateNaN (cwiseMax_PropagateNaN x (IEEE.of_Z fmt 0))
                        (IEEE.of_Z fmt 6).

(** [Relu6Grad]:
    [gradients * ((features > 0) * (features < 6)).cast<T>()]; the
    product of the two boolean expressions is their conjunction. *)
Definition Relu6Grad_mask (x : T) : bool :=
  IEEE.gt x (IEEE.of_Z fmt 0) && IEEE.lt x (IEEE.of_Z fmt 6).

Definition Relu6Grad_elem (g x : T) : T :=
  IEEE.mul fmt g (IEEE.of_bool fmt (Relu6Grad_mask x)).

(** [LeakyRelu]:
    [(features > 0).select(features, features * alpha)]. *)
Definition LeakyRelu_elem (alpha x : T) : T :=
  if IEEE.gt x (IEEE.of_Z fmt 0) then x else IEEE.mul fmt x alpha.

(** [LeakyReluGrad]:
    [(features > 0).select(gradients, gradients * alpha)]. *)
Definition LeakyReluGrad_elem (alpha g x : T) : T :=
  if IEEE.gt x (IEEE.of_Z fmt 0) then g else IEEE.mul fmt g alpha.

(** The tensor-level functors. *)
Definition Relu (features : list T) : list T :=
  map Relu_elem features.

Definition ReluGrad (gradients features : list T) : list T :=
  map (fun gx => ReluGrad_elem (fst gx) (snd gx))
      (combine gradients features).

Definition Relu6 (features : list T) : list T :=
  map Relu6_elem features.

Definition Relu6Grad (gradients features : list T) : list T :=
  map (fun gx => Relu6Grad_elem (fst gx) (snd gx))
      (combine gradients features).

Definition LeakyRelu (features : list T) (alpha : T) : list T :=
  map (LeakyRelu_elem alpha) features.

Definition LeakyReluGrad (gradients features : list T) (alpha : T)
  : list T :=
  map (fun gx => LeakyReluGrad_elem alpha (fst gx) (snd gx))
      (combine gradients features).

End Scalar.

End Functor.

(** ** Half precision on the device

    An [Eigen::half] in memory is its 16-bit pattern.  The device
    intrinsics and Eigen's conversions are IEEE operations on the decoded
    value; a NaN is re-encoded as the quiet NaN [0x7E00]. *)

Module Half.

Definition half : Set := Z.

Definition sign_bit (s : bool) : Z := if s then 0x8000 else 0.

Definition decode (h : half) : spec_float :=
  let s := Z.testbit h 15 in
  let e := Z.land (Z.shiftr h 10) 0x1F in
  let m := Z.land h 0x3FF in
  if e =? 0 then
    if m =? 0 then S754_zero s else S754_finite s (Z.to_pos m) (-24)
  else if e =? 31 then
    if m =? 0 then S754_infinity s else S754_nan
  else S754_finite s (Z.to_pos (m + 1024)) (e - 25).

Definition encode (v : spec_float) : half :=
  match v with
  | S754_zero s => sign_bit s
  | S754_infinity s => sign_bit s + 0x7C00
  | S754_nan => 0x7E00
  | S754_finite s m e =>
      sign_bit s + (if Zpos m <? 1024 then Zpos m
                    else (e + 25) * 1024 + (Zpos m - 1024))
  end.

(** Rounding of a value to a format (nearest, ties to even; overflow gives
    an infinity). *)
Definition round_to (fmt : IEEE.format) (v : spec_float) : spec_float :=
  match v with
  | S754_finite s m e => binary_round (IEEE.prec fmt) (IEEE.emax fmt) s m e
  | _ => v
  end.

(** [__half2float] and [static_cast<float>(Eigen::half)]: exact. *)
Definition half_to_float (h : half) : spec_float :=
  round_to IEEE.binary32 (decode h).

(** [__float2half_rn] and the constructor [Eigen::half(float)]. *)
Definition float_to_half_rn (f : spec_float) : half :=
  encode (round_to IEEE.binary16 f).

(** A [half2] holds two halves; [.x] is the one at the lower address. *)
Definition half2 : Set := (half * half)%type.
Definition float2 : Set := (spec_float * spec_float)%type.

Definition make_float2 (x y : spec_float) : float2 := (x, y).

Definition __float2half2_rn (f : spec_float) : half2 :=
  (float_to_half_rn f, float_to_half_rn f).

Definition __half22float2 (a : half2) : float2 :=
  (half_to_float (fst a), half_to_float (snd a)).

Definition __float22half2_rn (a : float2) : half2 :=
  (float_to_half_rn (fst a), float_to_half_rn (snd a)).

(** [__hgt2]: lane-wise [a > b], giving [1.0] or [0.0] in each lane. *)
Definition hgt (a b : half) : half :=
  if IEEE.gt (decode a) (decode b) then 0x3C00 else 0.

Definition __hgt2 (a b : half2) : half2 :=
  (hgt (fst a) (fst b), hgt (snd a) (snd b)).

(** [__hmul2]: lane-wise product. *)
Definition hmul (a b : half) : half :=
  encode (IEEE.mul IEEE.binary16 (decode a) (decode b)).

Definition __hmul2 (a b : half2) : half2 :=
  (hmul (fst a) (fst b), hmul (snd a) (snd b)).

End Half.

(** ** The launch model

    A kernel is launched on a one-dimensional grid; the threads are the
    pairs (block index, thread index).  Device buffers are functions from
    element offsets to values.  A thread returns the stores it performs,
    in program order; a launch collects the stores of all its threads. *)

Module Gpu.

Record thread : Set := {
  gridDim_x : Z;
  blockDim_x : Z;
  blockIdx_x : Z;
  threadIdx_x : Z
}.

Definition zrange (n : Z) : list Z := map Z.of_nat (seq 0 (Z.to_nat n)).

Definition threads (grid block : Z) : list thread :=
  flat_map (fun b => map (fun t => Build_thread grid block b t)
                         (zrange block))
           (zrange grid).

(** [blockIdx.x * blockDim.x + threadIdx.x], assigned to an [int32]. *)
Definition global_index (t : thread) : Z :=
  Int.i32 (blockIdx_x t * blockDim_x t + threadIdx_x t).

(** [gridDim.x * blockDim.x], assigned to an [int32]. *)
Definition total_threads (t : thread) : Z :=
  Int.i32 (gridDim_x t * blockDim_x t).

Definition store (A : Type) : Type := (Z * A)%type.

(** The events (stores, or loads and stores) of all threads; [None] when a
    thread does not finish within its fuel. *)
Fixpoint run_threads {E : Type} (kernel : thread -> option (list E))
         (ts : list thread) : option (list E) :=
  match ts with
  | [] => Some []
  | t :: ts' =>
      match kernel t, run_threads kernel ts' with
      | Some w, Some ws => Some (w ++ ws)
      | _, _ => None
      end
  end.

(** [GpuLaunchKernel(kernel, grid, block, 0, stream, args...)]. *)
Definition GpuLaunchKernel {E : Type}
           (kernel : thread -> option (list E)) (grid block : Z)
  : option (list E) :=
  run_threads kernel (threads grid block).

(** The effect of a list of stores on a buffer; later stores win. *)
Fixpoint apply_stores {A : Type} (ws : list (store A)) (mem : Z -> A)
  : Z -> A :=
  match ws with
  | [] => mem
  | (i, v) :: ws' =>
      apply_stores ws' (fun j => if j =? i then v else mem j)
  end.

(** The loop [while (index < n) { body(index); index += stride; }] on
    [int32] variables: the indices the body runs at, and the index at exit.
    [CUDA_1D_KERNEL_LOOP(index, n)] is the same loop started at the global
    index of the thread with the total thread count as stride. *)
Fixpoint grid_stride (fuel : nat) (index stride n : Z)
  : option (list Z * Z) :=
  if index <? n then
    match fuel with
    | O => None
    | S fuel' =>
        match grid_stride fuel' (Int.i32 (index + stride)) stride n with
        | Some (visited, final) => Some (index :: visited, final)
        | None => None
        end
    end
  else Some ([], index).

(** The launch configuration computed by
    [GetGpuLaunchConfigFixedBlockSize]. *)
Record GpuLaunchConfig : Set := {
  block_count : Z;
  thread_per_block : Z
}.

End Gpu.

(** ** [relu_op_gpu.cu.cc]: the half-precision ReluGrad kernels *)

Module ReluGradHalf.

Import Half Gpu.

Definition VectorSizeElements : Z := 8.
Definition kThreadInBlock : Z := 512.

(** [reinterpret_cast<const half2*>(p)[index]] and the store through a
    [half2*]. *)
Definition load_half2 (p : Z -> half) (index : Z) : half2 :=
  (p (2 * index), p (2 * index + 1)).

Definition store_half2 (index : Z) (v : half2) : list (store half) :=
  [(2 * index, fst v); (2 * index + 1, snd v)].

(** The body shared by the two kernels for one [half2]; [native] is
    [__CUDA_ARCH__ >= 530]. *)
Definition relu_grad_half2 (native : bool) (gradient_h2 feature_h2 : half2)
  : half2 :=
  if native then
    let kZeroH2 := __float2half2_rn (IEEE.of_Z IEEE.binary32 0) in
    let mask_h2 := __hgt2 feature_h2 kZeroH2 in
    __hmul2 mask_h2 gradient_h2
  else
    let feature_f2 := __half22float2 feature_h2 in
    let gradient_f2 := __half22float2 gradient_h2 in
    let backprop_f2 :=
      make_float2
        (if IEEE.gt (fst feature_f2) (IEEE.of_Z IEEE.binary32 0)
         then fst gradient_f2 else IEEE.of_Z IEEE.binary32 0)
        (if IEEE.gt (snd feature_f2) (IEEE.of_Z IEEE.binary32 0)
         then snd gradient_f2 else IEEE.of_Z IEEE.binary32 0) in
    __float22half2_rn backprop_f2.

(** The scalar path both kernels use for left-over elements. *)
Definition relu_grad_scalar (grad_h feature_h : half) : half :=
  let grad_f := half_to_float grad_h in
  let feature_f := half_to_float feature_h in
  let backprop_f :=
    if IEEE.gt feature_f (IEEE.of_Z IEEE.binary32 0)
    then grad_f else IEEE.of_Z IEEE.binary32 0 in
  float_to_half_rn backprop_f.

(** One lane of [relu_grad_half2]. *)
Definition relu_grad_lane (native : bool) (g f : half) : half :=
  if native then
    hmul (hgt f (float_to_half_rn (IEEE.of_Z IEEE.binary32 0))) g
  else
    float_to_half_rn
      (if IEEE.gt (half_to_float f) (IEEE.of_Z IEEE.binary32 0)
       then half_to_float g else IEEE.of_Z IEEE.binary32 0).

(** [ReluGradHalfKernel]: one [half2] per iteration of a grid-stride
    loop, then the last element when [count] is odd. *)
Definition ReluGradHalfKernel (native : bool) (fuel : nat)
           (gradient feature : Z -> half) (count : Z) (t : thread)
  : option (list (store half)) :=
  let half2_count := Z.shiftr count 1 in
  let index := global_index t in
  let total_device_threads := total_threads t in
  match grid_stride fuel index total_device_threads half2_count with
  | None => None
  | Some (visited, index) =>
      Some
        (flat_map
           (fun index =>
              let gradient_h2 := load_half2 gradient index in
              let feature_h2 := load_half2 feature index in
              store_half2 index
                (relu_grad_half2 native gradient_h2 feature_h2))
           visited
         ++ (if (Z.land count 1 =? 1) && (index =? half2_count) then
               [(count - 1,
                 relu_grad_scalar (gradient (count - 1))
                                  (feature (count - 1)))]
             else []))
  end.

(** [ReluGradHalfKernelVector]: eight halves per thread through one
    128-bit load and store, as four [half2]; the first
    [count % 8] threads also process one left-over element each. *)
Definition ReluGradHalfKernelVector (native : bool)
           (gradient feature : Z -> half) (count : Z) (t : thread)
  : option (list (store half)) :=
  let half8_count := Z.quot count VectorSizeElements in
  let index := global_index t in
  let vector_part :=
    if index <? half8_count then
      flat_map
        (fun i =>
           let gradient_h2 := load_half2 gradient (4 * index + i) in
           let feature_h2 := load_half2 feature (4 * index + i) in
           store_half2 (4 * index + i)
             (relu_grad_half2 native gradient_h2 feature_h2))
        (zrange (Z.quot VectorSizeElements 2))
    else [] in
  let remaining_count := Z.rem count VectorSizeElements in
  let scalar_part :=
    if index <? remaining_count then
      [(half8_count * VectorSizeElements + index,
        relu_grad_scalar
          (gradient (half8_count * VectorSizeElements + index))
          (feature (half8_count * VectorSizeElements + index)))]
    else [] in
  Some (vector_part ++ scalar_part).

(** The index at which a thread of [ReluGradHalfKernel] leaves its loop. *)
Definition post_loop_index (fuel : nat) (count : Z) (t : thread)
  : option Z :=
  option_map snd
    (grid_stride fuel (global_index t) (total_threads t) (Z.shiftr count 1)).

(** What the two kernels leave at offset [j] of [backprop]: the paired
    kernel takes the [half2] path below [2 * (count >> 1)], the vector
    kernel below [8 * (count / 8)]; the scalar path elsewhere. *)
Definition paired_result (native : bool) (gradient feature : Z -> half)
           (count j : Z) : half :=
  if j <? 2 * Z.shiftr count 1
  then relu_grad_lane native (gradient j) (feature j)
  else relu_grad_scalar (gradient j) (feature j).

Definition vector_result (native : bool) (gradient feature : Z -> half)
           (count j : Z) : half :=
  if j <? VectorSizeElements * Z.quot count VectorSizeElements
  then relu_grad_lane native (gradient j) (feature j)
  else relu_grad_scalar (gradient j) (feature j).

(** The launcher [ReluGrad<Device, Eigen::half>::operator()].  The three
    data pointers decide between the kernels; the configuration of the
    paired kernel comes from [GetGpuLaunchConfigFixedBlockSize]. *)
Section Launcher.

Variable GetGpuLaunchConfigFixedBlockSize : Z -> Z -> GpuLaunchConfig.

Definition ReluGrad (native : bool) (fuel : nat)
           (gradient_ptr feature_ptr backprop_ptr : Z)
           (gradient feature : Z -> half) (size : Z)
  : option (list (store half)) :=
  let aligned :=
    (Z.rem gradient_ptr 16 =? 0) && (Z.rem feature_ptr 16 =? 0)
    && (Z.rem backprop_ptr 16 =? 0) in
  let count := Int.i32 size in
  if count =? 0 then Some []
  else if aligned then
    let half8_count := Int.divup count VectorSizeElements in
    let kBlock := Int.divup half8_count kThreadInBlock in
    GpuLaunchKernel (ReluGradHalfKernelVector native gradient feature count)
                    kBlock kThreadInBlock
  else
    let half2_count := Int.divup count 2 in
    let config :=
      GetGpuLaunchConfigFixedBlockSize half2_count kThreadInBlock in
    GpuLaunchKernel (ReluGradHalfKernel native fuel gradient feature count)
                    (block_count config) (thread_per_block config).

End Launcher.

End ReluGradHalf.

(** ** [relu_op_gpu.cu.cc]: the packed int8 ReLU *)

Module ReluInt8.

Import Gpu.

Definition kThreadInBlock : Z := 512.

(** The kernel works on [int32] words; a thread loads [input[index]] and
    stores [output[index]]. *)
Inductive access : Set :=
| Load (index : Z)
| Store (index : Z) (value : Z).

(** The four bytes a word access touches. *)
Definition word_bytes (index : Z) : list Z :=
  [4 * index; 4 * index + 1; 4 * index + 2; 4 * index + 3].

Definition bytes_read (trace : list access) : list Z :=
  flat_map (fun a => match a with Load i => word_bytes i | Store _ _ => [] end)
           trace.

Definition bytes_written (trace : list access) : list Z :=
  flat_map (fun a => match a with Store i _ => word_bytes i | Load _ => [] end)
           trace.

(** [reinterpret_cast<const int32*>(input.data())]: the [int8] buffer read
    as little-endian words. *)
Definition int32_view (bytes : Z -> Z) (index : Z) : Z :=
  Int.i32 (bytes (4 * index) mod 256
           + (bytes (4 * index + 1) mod 256) * 2 ^ 8
           + (bytes (4 * index + 2) mod 256) * 2 ^ 16
           + (bytes (4 * index + 3) mod 256) * 2 ^ 24).

(** The CUDA intrinsic [__vmaxs4]: per-byte signed maximum. *)
Definition __vmaxs4 (a b : Z) : Z :=
  let lane_max k :=
    Int8x4.byte_of_int8
      (Z.max (Int8x4.int8_of_byte (Int8x4.lane a k))
             (Int8x4.int8_of_byte (Int8x4.lane b k))) in
  Int8x4.pack (lane_max 0) (lane_max 1) (lane_max 2) (lane_max 3).

(** [Relu_int8x4_kernel]; [google_cuda] selects the [#if GOOGLE_CUDA]
    branch. *)
Definition Relu_int8x4_kernel (google_cuda : bool) (fuel : nat)
           (vect_count : Z) (input : Z -> Z) (t : thread)
  : option (list access) :=
  match grid_stride fuel (global_index t) (total_threads t) vect_count with
  | None => None
  | Some (visited, _) =>
      Some (flat_map
              (fun index =>
                 [Load index;
                  Store index
                    (if google_cuda then __vmaxs4 (input index) 0
                     else Int8x4.relu_word (input index))])
              visited)
  end.

(** The launcher [Relu<Device, qint8>::operator()]. *)
Section Launcher.

Variable GetGpuLaunchConfigFixedBlockSize : Z -> Z -> GpuLaunchConfig.

Definition Relu (google_cuda : bool) (fuel : nat) (input : Z -> Z)
           (size : Z) : option (list access) :=
  let count := Int.i32 size in
  if count =? 0 then Some []
  else
    let vect_count := Int.divup count 4 in
    let config :=
      GetGpuLaunchConfigFixedBlockSize vect_count kThreadInBlock in
    GpuLaunchKernel
      (Relu_int8x4_kernel google_cuda fuel vect_count (int32_view input))
      (block_count config) (thread_per_block config).

End Launcher.

End ReluInt8.

(** ** [relu_op_gpu.cu.cc]: the Quant8 kernels and their launcher *)

Module Quant8.

Import Gpu.

(** The template parameter [T]. *)
Inductive scalar_type : Set := Half | Float.

Definition sizeof (T : scalar_type) : Z :=
  match T with Half => 2 | Float => 4 end.

(** The narrow-float casts of [hip_float8.h], which the kernels call with
    the template arguments [<wm, we, FT, negative_zero_nan, clip, stoch>];
    values travel as bit patterns. *)
Class hip_f8_impl : Type := {
  cast_to_f8x :
    Z -> Z -> scalar_type -> bool -> bool -> bool -> Z -> Z -> Z;
  cast_to_f8 :
    Z -> Z -> scalar_type -> bool -> bool -> bool -> Z -> Z -> Z;
  cast_from_f8 : Z -> Z -> scalar_type -> bool -> Z -> Z
}.

(** The random word of the stochastic path of [Quant8FwdKernel]; [x] is
    the bit pattern [in[i]] (16 or 32 bits). *)
Definition rng_generic (T : scalar_type) (x i seed : Z) : Z :=
  let drop_bits := Z.land (Int.u32 x) 0xFFFF in
  let drop_bits :=
    if sizeof T =? 4 then Z.lxor drop_bits (Z.shiftr x 16) else drop_bits in
  let drop_bits :=
    Z.lor (Int.u32 (Z.shiftl (Z.land drop_bits 31) 11))
          (Z.shiftr drop_bits 5) in
  let drop_bits := Int.u32 (drop_bits * 0x7000149) in
  Z.lxor (Z.lxor (Z.lxor drop_bits 0x13371337)
                 (Int.u32 (Int.i32 (i * 229791))))
         seed.

(** The same lines in [Quant8FwdKernel_52]. *)
Definition rng_52 (T : scalar_type) (x i seed : Z) : Z :=
  let drop_bits := Z.land (Int.u32 x) 0xFFFF in
  let drop_bits :=
    if sizeof T =? 4 then Z.lxor drop_bits (Z.shiftr x 16) else drop_bits in
  let drop_bits :=
    Z.lor (Int.u32 (Z.shiftl (Z.land drop_bits 31) 11))
          (Z.shiftr drop_bits 5) in
  let drop_bits := Int.u32 (drop_bits * 0x7000149) in
  Z.lxor (Z.lxor (Z.lxor drop_bits 0x13371337)
                 (Int.u32 (Int.i32 (i * 229791))))
         seed.

(** The lines of [Quant8FwdKernel_43], with [drop_bits += i] before the
    multiplication. *)
Definition rng_43 (T : scalar_type) (x i seed : Z) : Z :=
  let drop_bits := Z.land (Int.u32 x) 0xFFFF in
  let drop_bits :=
    if sizeof T =? 4 then Z.lxor drop_bits (Z.shiftr x 16) else drop_bits in
  let drop_bits :=
    Z.lor (Int.u32 (Z.shiftl (Z.land drop_bits 31) 11))
          (Z.shiftr drop_bits 5) in
  let drop_bits := Int.u32 (drop_bits + i) in
  let drop_bits := Int.u32 (drop_bits * 0x7000149) in
  Z.lxor (Z.lxor (Z.lxor drop_bits 0x13371337)
                 (Int.u32 (Int.i32 (i * 229791))))
         seed.

(** The derivation as the specification words it: the low 16 bits of [x],
    XORed with the high 16 bits for a 32-bit [T], the rotation, the
    multiplication modulo [2^32], and the final XOR, a 32-bit word. *)
Definition spec_rotate (T : scalar_type) (x : Z) : Z :=
  let x16 := x mod 2 ^ 16 in
  let drop := if sizeof T =? 4 then Z.lxor x16 (x / 2 ^ 16) else x16 in
  Z.lor ((drop mod 32) * 2 ^ 11) (drop / 2 ^ 5).

Definition spec_mix (drop i seed : Z) : Z :=
  let drop := (drop * 0x7000149) mod 2 ^ 32 in
  (Z.lxor (Z.lxor (Z.lxor drop 0x13371337) (i * 229791)) seed) mod 2 ^ 32.

Definition spec_rng (T : scalar_type) (x i seed : Z) : Z :=
  spec_mix (spec_rotate T x) i seed.

Section Kernels.

Context {impl : hip_f8_impl}.

(** [Quant8FwdKernel<T, we, wm>]: the encoding goes to the local [y];
    the body ends there. *)
Definition Quant8FwdKernel (T : scalar_type) (we wm : Z) (_in : Z -> Z)
           (count exp_low_cutoff : Z) (stoch : bool) (seed : Z) (t : thread)
  : option (list (store Z)) :=
  let i := Int.i32 (threadIdx_x t + blockIdx_x t * blockDim_x t) in
  if i >=? count then Some []
  else
    let x := _in i in
    let y :=
      if negb stoch then
        cast_to_f8x wm we T false true false (_in i) 0 mod 2 ^ 16
      else
        let rng := rng_generic T x i seed in
        cast_to_f8x wm we T false true true (_in i) rng mod 2 ^ 16 in
    Some [].

(** [Quant8FwdKernel_52<T>]. *)
Definition Quant8FwdKernel_52 (T : scalar_type) (_in : Z -> Z)
           (count exp_low_cutoff : Z) (stoch : bool) (seed : Z) (t : thread)
  : option (list (store Z)) :=
  let i := Int.i32 (threadIdx_x t + blockIdx_x t * blockDim_x t) in
  if i >=? count then Some []
  else
    let x := _in i in
    let we := 5 in
    let wm := 2 in
    let y :=
      if negb stoch then
        cast_to_f8 wm we T false true false (_in i) 0 mod 2 ^ 8
      else
        let rng := rng_52 T x i seed in
        cast_to_f8 wm we T false true true (_in i) rng mod 2 ^ 8 in
    Some [(i, cast_from_f8 wm we T false y)].

(** [Quant8FwdKernel_43<T>]. *)
Definition Quant8FwdKernel_43 (T : scalar_type) (_in : Z -> Z)
           (count exp_low_cutoff : Z) (stoch : bool) (seed : Z) (t : thread)
  : option (list (store Z)) :=
  let i := Int.i32 (threadIdx_x t + blockIdx_x t * blockDim_x t) in
  if i >=? count then Some []
  else
    let x := _in i in
    let we := 4 in
    let wm := 3 in
    let y :=
      if negb stoch then
        cast_to_f8 wm we T false true false (_in i) 0 mod 2 ^ 8
      else
        let rng := rng_43 T x i seed in
        cast_to_f8 wm we T false true true (_in i) rng mod 2 ^ 8 in
    Some [(i, cast_from_f8 wm we T false y)].

(** [Quant8BwdKernel<T>]: a copy. *)
Definition Quant8BwdKernel (_in : Z -> Z) (count : Z) (t : thread)
  : option (list (store Z)) :=
  let i := Int.i32 (threadIdx_x t + blockIdx_x t * blockDim_x t) in
  if i >=? count then Some [] else Some [(i, _in i)].

End Kernels.

(** *** The launcher [Quant8Fwd<GPUDevice, T>::operator()] *)

(** The arguments handed to [GpuLaunchKernel] after the stream. *)
Inductive kernel_arg : Set :=
| ArgInput
| ArgOutput
| ArgInt (v : Z)
| ArgBool (b : bool).

(** A launch of [op = Quant8FwdKernel<T, we, wm>]. *)
Record launch : Set := {
  op_we : Z;
  op_wm : Z;
  grid : Z;
  block : Z;
  args : list kernel_arg
}.

(** What a call does on the host: the lines printed, the new value of the
    static [warn_count], and the launch, if any. *)
Record outcome : Set := {
  printed : list string;
  warn_count_after : Z;
  launched : option launch
}.

Definition newline : string := String (Ascii.ascii_of_nat 10) EmptyString.

Definition warning_float : string :=
  ("WARNING: calling QuantFwd<float>" ++ newline)%string.
Definition error_W1_W2 : string :=
  ("ERROR: bad W1,W2 values" ++ newline)%string.
Definition error_W1 : string := ("ERROR: bad W1 value" ++ newline)%string.

(** [warn_count] is the static counter of the [float] instantiation.
    [dynamic] is accepted and not used.  [1 << (exp_width - 1)] is written
    with [Z.shiftl]; for widths outside [1..31] the C++ shift is undefined,
    and no kernel reads [exp_low_cutoff]. *)
Definition Quant8Fwd (T : scalar_type) (warn_count : Z) (size : Z)
           (W1 W2 : Z) (stoch dynamic : bool) : outcome :=
  let count := Int.i32 size in
  if count =? 0 then
    {| printed := []; warn_count_after := warn_count; launched := None |}
  else
    let kThreadInBlock := 256 in
    let warn_count' :=
      match T with Float => Int.i32 (warn_count + 1) | Half => warn_count end in
    let warning :=
      match T with
      | Float => if warn_count' <? 10 then [warning_float] else []
      | Half => []
      end in
    let exp_width := W1 in
    let mant_width := W2 in
    let logEmax := if sizeof T =? 4 then 8 else 5 in
    let Emax := Z.shiftl 1 logEmax in
    let exp_low_cutoff :=
      Int.i32 (Z.quot Emax 2 - Z.shiftl 1 (exp_width - 1) + 1) in
    let op := (5, 3) in
    let '(op, errors) :=
      if W1 =? 4 then
        if W2 =? 1 then ((4, 1), [])
        else if W2 =? 2 then ((4, 2), [])
        else if W2 =? 3 then ((4, 3), [])
        else (op, [error_W1_W2])
      else if (W1 =? 5) || ((W1 =? 8) && (sizeof T =? 2)) then
        if W2 =? 1 then ((5, 1), [])
        else if W2 =? 2 then ((5, 2), [])
        else if W2 =? 3 then ((5, 3), [])
        else (op, [error_W1_W2])
      else if W1 =? 8 then
        if W2 =? 1 then ((8, 1), [])
        else if W2 =? 2 then ((8, 2), [])
        else if W2 =? 3 then ((8, 3), [])
        else (op, [error_W1_W2])
      else (op, [error_W1]) in
    {| printed := warning ++ errors;
       warn_count_after := warn_count';
       launched :=
         Some {| op_we := fst op;
                 op_wm := snd op;
                 grid := Z.quot (Int.i32 (count + kThreadInBlock - 1))
                               kThreadInBlock;
                 block := kThreadInBlock;
                 args := [ArgInput; ArgOutput; ArgInt count;
                          ArgInt exp_low_cutoff; ArgBool stoch] |} |}.

(** The device side of a launch: the kernel parameters
    [(_in, _out, count, exp_low_cutoff, stoch, seed)] are bound to the
    arguments in order; a parameter without an argument holds
    [unspecified]. *)
Definition run_launch {impl : hip_f8_impl} (T : scalar_type)
           (input : Z -> Z) (l : launch) (unspecified : Z)
  : option (list (store Z)) :=
  match args l with
  | ArgInput :: ArgOutput :: ArgInt count :: ArgInt exp_low_cutoff
      :: ArgBool stoch :: rest =>
      let seed :=
        match rest with
        | ArgInt s :: _ => Int.u32 s
        | _ => Int.u32 unspecified
        end in
      GpuLaunchKernel
        (Quant8FwdKernel T (op_we l) (op_wm l) input count exp_low_cutoff
                         stoch seed)
        (grid l) (block l)
  | _ => None
  end.

(** The seed argument of a launch, if one was passed. *)
Definition seed_argument (l : launch) : option Z :=
  match nth_error (args l) 5 with
  | Some (ArgInt s) => Some s
  | _ => None
  end.

(** The output buffer after a call: the stores of the launch applied to
    its previous contents. *)
Definition output_after {impl : hip_f8_impl} (T : scalar_type)
           (warn_count : Z) (input output : Z -> Z) (size : Z)
           (W1 W2 : Z) (stoch dynamic : bool) (unspecified : Z)
  : option (Z -> Z) :=
  match launched (Quant8Fwd T warn_count size W1 W2 stoch dynamic) with
  | None => Some output
  | Some l =>
      match run_launch T input l unspecified with
      | Some ws => Some (apply_stores ws output)
      | None => None
      end
  end.

(** The pairs the specification lists as supported. *)
Definition supported (W1 W2 : Z) : bool :=
  ((W1 =? 4) || (W1 =? 5) || (W1 =? 8))
  && ((W2 =? 1) || (W2 =? 2) || (W2 =? 3)).

End Quant8.

(** ** Checking a predicate on every 16-bit pattern *)

Module Exhaustive.

(** [P i && P (i + 1) && ... && P (i + n - 1)]. *)
Fixpoint forall_from (n : nat) (i : Z) (P : Z -> bool) : bool :=
  match n with
  | O => true
  | S n' => P i && forall_from n' (i + 1) P
  end.

End Exhaustive.

(** ** Reading half-precision patterns *)

Module HalfClass.

(** The pattern decodes to a NaN (exponent field 31, mantissa not 0). *)
Definition is_nan (h : Half.half) : bool := IEEE.is_nan (Half.decode h).

(** The pattern decodes to an infinity or a NaN (exponent field 31). *)
Definition is_special (h : Half.half) : bool :=
  Z.land (Z.shiftr h 10) 0x1F =? 31.

(** [h > 0]: what [__hgt2] against zero and the widened comparison
    [feature_f > 0] both decide. *)
Definition positive (h : Half.half) : bool :=
  IEEE.gt (Half.decode h) (S754_zero false).

End HalfClass.

(** ** The stores in a trace of the int8 kernel *)

Module ReluInt8Trace.

Import ReluInt8.

(** The (word index, value) pairs stored, in order. *)
Definition stores_of (trace : list access) : list (Z * Z) :=
  flat_map (fun a => match a with
                     | Store i v => [(i, v)]
                     | Load _ => []
                     end) trace.

End ReluInt8Trace.

(** ** [relu_op_gpu.cu.cc]: the launcher of the Quant8 backward pass *)

Module Quant8Backward.

Import Gpu.

(** [Quant8Bwd<Device, Eigen::half>::operator()] and
    [Quant8Bwd<Device, float>::operator()]: the two specialisations have
    the same body.  The grid size [(count + kThreadInBlock - 1) /
    kThreadInBlock] is [int32] arithmetic. *)
Definition Quant8Bwd (input : Z -> Z) (size : Z) : option (list (store Z)) :=
  let count := Int.i32 size in
  if count =? 0 then Some []
  else
    let kThreadInBlock := 256 in
    GpuLaunchKernel
      (Quant8.Quant8BwdKernel input count)
      (Z.quot (Int.i32 (count + kThreadInBlock - 1)) kThreadInBlock)
      kThreadInBlock.

End Quant8Backward.

(** ** A stand-in for the narrow-float casts

    [hip_float8.h] is outside the two source files; where an example needs
    concrete casts, this instance keeps the low bits of the pattern and
    ignores the random word. *)

Module SampleCasts.

Definition low_bits_casts : Quant8.hip_f8_impl :=
  {| Quant8.cast_to_f8x := fun _ _ _ _ _ _ x _ => x mod 2 ^ 16;
     Quant8.cast_to_f8 := fun _ _ _ _ _ _ x _ => x mod 2 ^ 8;
     Quant8.cast_from_f8 := fun _ _ _ _ y => y |}.

End SampleCasts.

(* ================================================================== *)
(** * Theorems *)

(** ** Bit-level reasoning on 32-bit words *)

Lemma testbit_u32 (z n : Z) :
  Z.testbit (Int.u32 z) n = (n <? 32) && Z.testbit z n.
Proof.
  unfold Int.u32.
  destruct (Z.ltb_spec n 32).
  - now rewrite Z.mod_pow2_bits_low.
  - now rewrite Z.mod_pow2_bits_high by lia.
Qed.

Lemma u32_range (z : Z) : 0 <= Int.u32 z < 2 ^ 32.
Proof. unfold Int.u32. apply Z.mod_pos_bound. lia. Qed.

Lemma u32_small (z : Z) : 0 <= z < 2 ^ 32 -> Int.u32 z = z.
Proof. intros H. unfold Int.u32. now apply Z.mod_small. Qed.

Lemma i32_small (z : Z) : - 2 ^ 31 <= z < 2 ^ 31 -> Int.i32 z = z.
Proof. intros H. unfold Int.i32. rewrite Z.mod_small; lia. Qed.

(** Without overflow of [x + y - 1], [Eigen::divup] is the rounded-up
    quotient. *)
Lemma divup_small (x y : Z) :
  0 <= x -> 0 < y -> x + y - 1 < 2 ^ 31 ->
  Int.divup x y = (x + y - 1) / y.
Proof.
  intros Hx Hy Hsum. unfold Int.divup.
  rewrite i32_small by lia. apply Z.quot_div_nonneg; lia.
Qed.

Lemma lane_range (w k : Z) : 0 <= Int8x4.lane w k < 256.
Proof.
  unfold Int8x4.lane. change 0xFF with (Z.ones 8).
  rewrite Z.land_ones by lia. apply Z.mod_pos_bound. lia.
Qed.

Lemma relu_int8_bits (b : Z) :
  0 <= b < 256 ->
  Int8x4.relu_int8 b = if Z.testbit b 7 then 0 else b.
Proof.
  intros Hb. unfold Int8x4.relu_int8, Int8x4.int8_of_byte, Int8x4.byte_of_int8.
  destruct (Z.ltb_spec b 128) as [Hlt | Hge].
  - rewrite Z.max_l by lia. rewrite Z.mod_small by lia.
    replace (Z.testbit b 7) with false; [reflexivity|].
    symmetry. apply Z.bits_above_log2; [lia|].
    destruct (Z.eq_dec b 0) as [->|]; [reflexivity|].
    apply Z.log2_lt_pow2; lia.
  - rewrite Z.max_r by lia.
    replace (Z.testbit b 7) with true; [reflexivity|].
    symmetry. apply Z.testbit_true; [lia|].
    replace (b / 2 ^ 7) with 1; [reflexivity|].
    change (2 ^ 7) with 128. apply Z.div_unique with (r := b - 128); lia.
Qed.


Ltac enum_nat k fuel :=
  lazymatch fuel with
  | O => intros; exfalso; lia
  | S ?fuel' => destruct k as [|k]; [intros -> _ | enum_nat k fuel']
  end.

Ltac bit_index_cases n :=
  let k := fresh "k" in
  let Hk := fresh "Hk" in
  let Hlt := fresh "Hlt" in
  assert (Hk : n = Z.of_nat (Z.to_nat n)) by (rewrite Z2Nat.id; lia);
  assert (Hlt : (Z.to_nat n < 32)%nat) by lia;
  revert Hk Hlt; generalize (Z.to_nat n); intros k;
  enum_nat k 32%nat;
  cbn [Z.of_nat Pos.of_succ_nat Pos.succ].


Lemma testbit_shiftl_any (a k n : Z) :
  Z.testbit (Z.shiftl a k) n = (0 <=? n) && Z.testbit a (n - k).
Proof.
  destruct (Z.leb_spec 0 n) as [H | H]; cbn [andb].
  - now apply Z.shiftl_spec.
  - now apply Z.testbit_neg_r.
Qed.

Lemma testbit_shiftr_any (a k n : Z) :
  Z.testbit (Z.shiftr a k) n = (0 <=? n) && Z.testbit a (n + k).
Proof.
  destruct (Z.leb_spec 0 n) as [H | H]; cbn [andb].
  - now apply Z.shiftr_spec.
  - now apply Z.testbit_neg_r.
Qed.

Lemma testbit_lnot_any (a n : Z) :
  Z.testbit (Z.lnot a) n = (0 <=? n) && negb (Z.testbit a n).
Proof.
  destruct (Z.leb_spec 0 n) as [H | H]; cbn [andb].
  - now apply Z.lnot_spec.
  - now apply Z.testbit_neg_r.
Qed.

Ltac push_bits :=
  repeat first
    [ rewrite Z.land_spec | rewrite Z.lor_spec | rewrite Z.lxor_spec
    | rewrite testbit_u32
    | rewrite testbit_shiftr_any | rewrite testbit_shiftl_any
    | rewrite testbit_lnot_any ].

Ltac is_literal c :=
  lazymatch c with
  | Z0 => idtac
  | Zpos _ => idtac
  | Zneg _ => idtac
  end.

Ltac eval_bits :=
  repeat match goal with
  | |- context [Z.testbit ?a ?i] =>
      tryif is_literal i then fail else
        (let i' := eval cbv in i in change i with i')
  end;
  repeat match goal with
  | |- context [Z.testbit ?c ?i] =>
      is_literal c;
      let v := eval cbv in (Z.testbit c i) in
      change (Z.testbit c i) with v
  | |- context [Z.ltb ?a ?b] =>
      let v := eval cbv in (Z.ltb a b) in
      change (Z.ltb a b) with v
  | |- context [Z.leb ?a ?b] =>
      let v := eval cbv in (Z.leb a b) in
      change (Z.leb a b) with v
  end;
  repeat (progress cbn [andb orb negb xorb]
          || rewrite andb_false_r || rewrite andb_true_r
          || rewrite orb_false_r || rewrite orb_true_r).

Ltac split_bits w :=
  repeat match goal with
  | |- context [Z.testbit w ?i] => destruct (Z.testbit w i)
  end.

Lemma relu_word_bits (w n : Z) :
  0 <= n < 32 ->
  Z.testbit (Z.land (Int.u32 w)
     (let signs := Z.land (Int.u32 (Z.lnot w)) 0x80808080 in
      let signs := Z.shiftr signs 7 in
      let signs := Z.lor signs (Int.u32 (Z.shiftl signs 1)) in
      let signs := Z.lor signs (Int.u32 (Z.shiftl signs 2)) in
      let signs := Z.lor signs (Int.u32 (Z.shiftl signs 4)) in
      Z.land signs 0x7f7f7f7f)) n
  = Z.testbit w n && negb (Z.testbit w (8 * (n / 8) + 7)).
Proof.
  intros Hn. cbv zeta.
  push_bits.
  bit_index_cases n.
  all: eval_bits.
  all: split_bits w; reflexivity.
Qed.

Lemma lane_bits (w k j : Z) :
  0 <= k ->
  Z.testbit (Int8x4.lane w k) j = (0 <=? j) && (j <? 8) && Z.testbit w (j + 8 * k).
Proof.
  intros Hk. unfold Int8x4.lane. change 0xFF with (Z.ones 8).
  rewrite Z.land_ones by lia.
  destruct (Z.leb_spec 0 j) as [H0 | H0]; cbn [andb].
  - destruct (Z.ltb_spec j 8) as [H8 | H8]; cbn [andb].
    + rewrite Z.mod_pow2_bits_low by lia. now rewrite Z.shiftr_spec.
    + now rewrite Z.mod_pow2_bits_high by lia.
  - now apply Z.testbit_neg_r.
Qed.

Lemma relu_int8_lane_bits (w k j : Z) :
  0 <= k ->
  Z.testbit (Int8x4.relu_int8 (Int8x4.lane w k)) j
  = (0 <=? j) && (j <? 8) && Z.testbit w (j + 8 * k)
    && negb (Z.testbit w (7 + 8 * k)).
Proof.
  intros Hk. rewrite relu_int8_bits by apply lane_range.
  rewrite (lane_bits w k 7) by assumption. cbn [Z.leb Z.ltb Z.compare Pos.compare Pos.compare_cont andb].
  destruct (Z.testbit w (7 + 8 * k)); cbn [negb].
  - rewrite Z.bits_0. now rewrite andb_false_r.
  - rewrite lane_bits by assumption. now rewrite andb_true_r.
Qed.

Lemma relu_word_ref_bits (w n : Z) :
  0 <= n < 32 ->
  Z.testbit
    (Z.lor (Int8x4.relu_int8 (Int8x4.lane w 0))
       (Z.lor (Z.shiftl (Int8x4.relu_int8 (Int8x4.lane w 1)) 8)
          (Z.lor (Z.shiftl (Int8x4.relu_int8 (Int8x4.lane w 2)) 16)
             (Z.shiftl (Int8x4.relu_int8 (Int8x4.lane w 3)) 24)))) n
  = Z.testbit w n && negb (Z.testbit w (8 * (n / 8) + 7)).
Proof.
  intros Hn. push_bits.
  rewrite !relu_int8_lane_bits by lia.
  bit_index_cases n.
  all: eval_bits.
  all: split_bits w; reflexivity.
Qed.

Lemma relu_word_ref_high_bits (w n : Z) :
  32 <= n ->
  Z.testbit
    (Z.lor (Int8x4.relu_int8 (Int8x4.lane w 0))
       (Z.lor (Z.shiftl (Int8x4.relu_int8 (Int8x4.lane w 1)) 8)
          (Z.lor (Z.shiftl (Int8x4.relu_int8 (Int8x4.lane w 2)) 16)
             (Z.shiftl (Int8x4.relu_int8 (Int8x4.lane w 3)) 24)))) n
  = false.
Proof.
  intros Hn. push_bits.
  rewrite !relu_int8_lane_bits by lia.
  replace (n <? 8) with false by (symmetry; apply Z.ltb_ge; lia).
  replace (n - 8 <? 8) with false by (symmetry; apply Z.ltb_ge; lia).
  replace (n - 16 <? 8) with false by (symmetry; apply Z.ltb_ge; lia).
  replace (n - 24 <? 8) with false by (symmetry; apply Z.ltb_ge; lia).
  now rewrite !andb_false_r.
Qed.

(** The [GOOGLE_CUDA] branch, [__vmaxs4(w, 0)], is the lane-wise reference
    by definition. *)
Lemma vmaxs4_zero (w : Z) : ReluInt8.__vmaxs4 w 0 = Int8x4.relu_word_ref w.
Proof. reflexivity. Qed.

(** C5.  For every 32-bit word the bit-parallel fallback of
    [Relu_int8x4_kernel] (sign bits taken from [~w & 0x80808080], shifted
    down, fanned out by three shift-and-OR steps, masked with [0x7f7f7f7f]
    and ANDed with the word) gives the same word as [max(b, 0)] applied to
    each of its four signed 8-bit lanes. *)
Theorem relu_word_matches_reference (w : Z) :
  Int8x4.relu_word w = Int8x4.relu_word_ref w.
Proof.
  unfold Int8x4.relu_word, Int8x4.relu_word_ref, Int8x4.pack. cbv zeta.
  f_equal. apply Z.bits_inj'. intros n Hn.
  destruct (Z.lt_ge_cases n 32) as [Hlt | Hge].
  - rewrite relu_word_ref_bits by lia.
    apply (relu_word_bits w n). lia.
  - rewrite relu_word_ref_high_bits by assumption.
    rewrite Z.land_spec, testbit_u32.
    replace (n <? 32) with false by (symmetry; apply Z.ltb_ge; lia).
    reflexivity.
Qed.

(** ** IEEE facts used by the functors *)

Lemma SFmul_comm (p e : Z) (a b : spec_float) : SFmul p e a b = SFmul p e b a.
Proof.
  destruct a as [sa | sa | | sa ma ea], b as [sb | sb | | sb mb eb]; cbn;
    rewrite ?(xorb_comm sa sb); try reflexivity.
  now rewrite (Pos.mul_comm ma mb), (Z.add_comm ea eb).
Qed.

Lemma of_Z_0 (fmt : IEEE.format) : IEEE.of_Z fmt 0 = S754_zero false.
Proof. reflexivity. Qed.

(** Scenario S1: ReLU6 on [[-1; 0; 3.5; 6; 7; NaN]]. *)
Example Relu6_S1 :
  Functor.Relu6 IEEE.binary32
    [IEEE.of_Z IEEE.binary32 (-1); IEEE.of_Z IEEE.binary32 0;
     IEEE.of_scaled IEEE.binary32 7 (-1); IEEE.of_Z IEEE.binary32 6;
     IEEE.of_Z IEEE.binary32 7; S754_nan]
  = [IEEE.of_Z IEEE.binary32 0; IEEE.of_Z IEEE.binary32 0;
     IEEE.of_scaled IEEE.binary32 7 (-1); IEEE.of_Z IEEE.binary32 6;
     IEEE.of_Z IEEE.binary32 6; S754_nan].
Proof. vm_compute. reflexivity. Qed.

Lemma SFltb_irrefl (a : spec_float) : SFltb a a = false.
Proof.
  unfold SFltb.
  destruct a as [s | s | | s m e]; cbn; try reflexivity.
  - now destruct s.
  - destruct s; rewrite Z.compare_refl;
      change (Pos.compare_cont Eq m m) with (Pos.compare m m);
      now rewrite Pos.compare_refl.
Qed.

Lemma SFltb_asym (a b : spec_float) : SFltb a b = true -> SFltb b a = false.
Proof.
  unfold SFltb.
  destruct a as [sa | sa | | sa ma ea], b as [sb | sb | | sb mb eb]; cbn;
    try destruct sa; try destruct sb; try (discriminate || reflexivity).
  all: rewrite (Z.compare_antisym ea eb);
    change (Pos.compare_cont Eq mb ma) with (Pos.compare mb ma);
    change (Pos.compare_cont Eq ma mb) with (Pos.compare ma mb);
    rewrite (Pos.compare_antisym ma mb);
    destruct (ea ?= eb); cbn; try (discriminate || reflexivity);
    destruct (ma ?= mb)%positive; cbn; discriminate || reflexivity.
Qed.

Lemma SFltb_nan_r (a : spec_float) : SFltb a S754_nan = false.
Proof. now destruct a. Qed.

Lemma SFltb_nan_l (a : spec_float) : SFltb S754_nan a = false.
Proof. reflexivity. Qed.

Lemma is_nan_true (a : spec_float) : IEEE.is_nan a = true -> a = S754_nan.
Proof. now destruct a. Qed.

(** Multiplying a value of the format by one returns it unchanged: the
    product mantissa is the operand's, shifted left by [prec - 1] bits, and
    rounding shifts it back exactly. *)
Lemma shr_fexp_exact_shift (p emx : Z) (m : positive) (e E M : Z)
      (k : positive) :
  Z.max (Zdigits2 M + E - p) (3 - emx - p) = e ->
  e - E = Zpos k ->
  iter_pos shr_1 k {| shr_m := M; shr_r := false; shr_s := false |}
  = {| shr_m := Zpos m; shr_r := false; shr_s := false |} ->
  shr_fexp p emx M E loc_Exact
  = ({| shr_m := Zpos m; shr_r := false; shr_s := false |}, e).
Proof.
  intros Hf Hk Hit. unfold shr_fexp, fexp, emin.
  replace (Z.max (Zdigits2 M + E - p) (3 - emx - p) - E) with (Zpos k) by lia.
  cbn [shr shr_record_of_loc]. rewrite Hit. f_equal. lia.
Qed.

Ltac mul_one_finite p emx k :=
  let Hb := fresh "Hb" in
  let Hc := fresh "Hc" in
  let He := fresh "He" in
  intros Hb; unfold IEEE.valid, valid_binary, bounded, canonical_mantissa,
                    fexp, emin, IEEE.binary32, IEEE.binary16 in Hb;
  cbn [IEEE.prec IEEE.emax] in Hb;
  apply andb_prop in Hb; destruct Hb as [Hc He];
  apply Z.eqb_eq in Hc; apply Z.leb_le in He;
  cbn [SFmul]; rewrite ?xorb_false_r, Pos.mul_comm; cbn [Pos.mul];
  unfold binary_round_aux;
  match goal with
  | |- context [shr_fexp p emx ?M ?E loc_Exact] =>
      match goal with
      | |- context [S754_finite _ ?m ?e] =>
          rewrite (shr_fexp_exact_shift p emx m e E M k);
          [ cbn [shr_m loc_of_shr_record round_nearest_even];
            unfold shr_fexp, fexp, emin; cbn [Zdigits2 shr_record_of_loc];
            replace (Z.max _ _ - e) with 0 by lia;
            cbn [shr shr_m];
            replace (e <=? emx - p) with true by (symmetry; apply Z.leb_le; lia);
            reflexivity
          | cbn [Zdigits2 digits2_pos]; lia
          | lia
          | reflexivity ]
      end
  end.

Lemma of_Z_1_binary32 :
  IEEE.of_Z IEEE.binary32 1 = S754_finite false 8388608 (-23).
Proof. reflexivity. Qed.

Lemma of_Z_1_binary16 :
  IEEE.of_Z IEEE.binary16 1 = S754_finite false 1024 (-10).
Proof. reflexivity. Qed.

Lemma mul_one_binary32 (g : spec_float) :
  IEEE.valid IEEE.binary32 g = true ->
  IEEE.mul IEEE.binary32 g (IEEE.of_Z IEEE.binary32 1) = g.
Proof.
  rewrite of_Z_1_binary32. unfold IEEE.mul, IEEE.binary32 at 2 3.
  cbn [IEEE.prec IEEE.emax].
  destruct g as [s | s | | s m e]; cbn [SFmul]; rewrite ?xorb_false_r;
    try reflexivity.
  mul_one_finite 24 128 23%positive.
Qed.

Lemma mul_one_binary16 (g : spec_float) :
  IEEE.valid IEEE.binary16 g = true ->
  IEEE.mul IEEE.binary16 g (IEEE.of_Z IEEE.binary16 1) = g.
Proof.
  rewrite of_Z_1_binary16. unfold IEEE.mul, IEEE.binary16 at 2 3.
  cbn [IEEE.prec IEEE.emax].
  destruct g as [s | s | | s m e]; cbn [SFmul]; rewrite ?xorb_false_r;
    try reflexivity.
  mul_one_finite 11 16 10%positive.
Qed.

(** ** The functors of [relu_op_functor.h] *)

Lemma Relu6Grad_mask_Relu6 (fmt : IEEE.format) (x : spec_float) :
  Functor.Relu6Grad_mask fmt (Functor.Relu6_elem fmt x)
  = Functor.Relu6Grad_mask fmt x.
Proof.
  unfold Functor.Relu6_elem, Functor.Relu6Grad_mask,
    Functor.cwiseMin_PropagateNaN, Functor.cwiseMax_PropagateNaN,
    IEEE.gt, IEEE.lt.
  rewrite of_Z_0. generalize (IEEE.of_Z fmt 6). intros six.
  change (IEEE.is_nan (S754_zero false)) with false.
  destruct (IEEE.is_nan x) eqn:Hx.
  - apply is_nan_true in Hx. subst x. reflexivity.
  - destruct (SFltb x (S754_zero false)) eqn:Hneg.
    + rewrite (SFltb_asym _ _ Hneg). cbn [andb IEEE.is_nan].
      destruct (IEEE.is_nan six);
        [|destruct (SFltb six (S754_zero false))];
        rewrite ?SFltb_irrefl, ?andb_false_r; reflexivity.
    + rewrite Hx.
      destruct (IEEE.is_nan six) eqn:Hsix.
      * apply is_nan_true in Hsix. subst six.
        rewrite !SFltb_nan_r. cbn [andb]. now rewrite !andb_false_r.
      * destruct (SFltb six x) eqn:Hbig; [|reflexivity].
        rewrite SFltb_irrefl.
        destruct (SFltb x six) eqn:Hsmall.
        -- apply SFltb_asym in Hsmall. congruence.
        -- now rewrite !andb_false_r.
Qed.

Lemma mul_zero_r (fmt : IEEE.format) (g : spec_float) :
  IEEE.mul fmt g (IEEE.of_Z fmt 0)
  = match g with
    | S754_zero s | S754_finite s _ _ => S754_zero s
    | _ => S754_nan
    end.
Proof.
  rewrite of_Z_0. unfold IEEE.mul.
  destruct g as [s | s | | s m e]; cbn; now rewrite ?xorb_false_r.
Qed.

(** C6.  LeakyReLU forward is the selection [x > 0 ? x : alpha * x] for
    every scalar [x] and every [alpha], whatever its sign and magnitude; the
    tensor functor maps it over the buffer.  With [alpha = -0.5] the input
    [[-2; 2]] gives [[1; 2]] (in binary32 and in binary16), and with
    [alpha = 2] the input [[-2; 2]] gives [[-4; 2]]: negative inputs are
    scaled, never clamped. *)
Theorem LeakyRelu_forward_select :
  (forall (fmt : IEEE.format) (alpha x : spec_float),
     Functor.LeakyRelu_elem fmt alpha x
     = if IEEE.gt x (IEEE.of_Z fmt 0) then x else IEEE.mul fmt alpha x)
  /\ (forall (fmt : IEEE.format) (features : list spec_float)
             (alpha : spec_float),
        Functor.LeakyRelu fmt features alpha
        = map (fun x => if IEEE.gt x (IEEE.of_Z fmt 0) then x
                        else IEEE.mul fmt alpha x) features)
  /\ Functor.LeakyRelu IEEE.binary32
       [IEEE.of_Z IEEE.binary32 (-2); IEEE.of_Z IEEE.binary32 2]
       (IEEE.of_scaled IEEE.binary32 (-1) (-1))
     = [IEEE.of_Z IEEE.binary32 1; IEEE.of_Z IEEE.binary32 2]
  /\ Functor.LeakyRelu IEEE.binary16
       [IEEE.of_Z IEEE.binary16 (-2); IEEE.of_Z IEEE.binary16 2]
       (IEEE.of_scaled IEEE.binary16 (-1) (-1))
     = [IEEE.of_Z IEEE.binary16 1; IEEE.of_Z IEEE.binary16 2]
  /\ Functor.LeakyRelu IEEE.binary32
       [IEEE.of_Z IEEE.binary32 (-2); IEEE.of_Z IEEE.binary32 2]
       (IEEE.of_Z IEEE.binary32 2)
     = [IEEE.of_Z IEEE.binary32 (-4); IEEE.of_Z IEEE.binary32 2].
Proof.
  assert (Helem : forall fmt alpha x,
             Functor.LeakyRelu_elem fmt alpha x
             = if IEEE.gt x (IEEE.of_Z fmt 0) then x
               else IEEE.mul fmt alpha x).
  { intros fmt alpha x. unfold Functor.LeakyRelu_elem, IEEE.mul.
    now rewrite (SFmul_comm _ _ x alpha). }
  split; [exact Helem|].
  split.
  - intros fmt features alpha. unfold Functor.LeakyRelu.
    apply map_ext. intros x. apply Helem.
  - repeat split; vm_compute; reflexivity.
Qed.

(** C7, as the code has it.  ReLU6 backward multiplies the gradient by the
    0/1 mask of the feature.  Where [x > 0] and [x < 6] both hold the result
    is the gradient itself; where one of them fails, in particular for a
    NaN feature and at [x = 0] and [x = 6] exactly, the result is [g * 0]: a
    zero carrying the sign of [g] when [g] is finite and NaN when [g] is
    infinite or NaN.  The forward output masks the gradient as the forward
    input does, so either may be passed as the feature argument. *)
Theorem Relu6Grad_masks_gradient :
  (forall g x : spec_float,
      IEEE.valid IEEE.binary32 g = true ->
      IEEE.gt x (IEEE.of_Z IEEE.binary32 0) = true ->
      IEEE.lt x (IEEE.of_Z IEEE.binary32 6) = true ->
      Functor.Relu6Grad_elem IEEE.binary32 g x = g)
  /\ (forall g x : spec_float,
         IEEE.valid IEEE.binary16 g = true ->
         IEEE.gt x (IEEE.of_Z IEEE.binary16 0) = true ->
         IEEE.lt x (IEEE.of_Z IEEE.binary16 6) = true ->
         Functor.Relu6Grad_elem IEEE.binary16 g x = g)
  /\ (forall (fmt : IEEE.format) (g x : spec_float),
         IEEE.gt x (IEEE.of_Z fmt 0) = false
         \/ IEEE.lt x (IEEE.of_Z fmt 6) = false ->
         Functor.Relu6Grad_elem fmt g x
         = match g with
           | S754_zero s | S754_finite s _ _ => S754_zero s
           | _ => S754_nan
           end)
  /\ (forall (fmt : IEEE.format) (g : spec_float),
         Functor.Relu6Grad_elem fmt g (IEEE.of_Z fmt 0)
         = match g with
           | S754_zero s | S754_finite s _ _ => S754_zero s
           | _ => S754_nan
           end
         /\ Functor.Relu6Grad_elem fmt g (IEEE.of_Z fmt 6)
            = match g with
              | S754_zero s | S754_finite s _ _ => S754_zero s
              | _ => S754_nan
              end)
  /\ (forall (fmt : IEEE.format) (g x : spec_float),
         Functor.Relu6Grad_elem fmt g (Functor.Relu6_elem fmt x)
         = Functor.Relu6Grad_elem fmt g x).
Proof.
  assert (Hblock : forall (fmt : IEEE.format) (g x : spec_float),
             IEEE.gt x (IEEE.of_Z fmt 0) = false
             \/ IEEE.lt x (IEEE.of_Z fmt 6) = false ->
             Functor.Relu6Grad_elem fmt g x
             = match g with
               | S754_zero s | S754_finite s _ _ => S754_zero s
               | _ => S754_nan
               end).
  { intros fmt g x Hx.
    unfold Functor.Relu6Grad_elem, Functor.Relu6Grad_mask.
    destruct Hx as [-> | ->]; rewrite ?andb_false_r; apply mul_zero_r. }
  split; [|split; [|split; [|split]]].
  - intros g x Hg Hpos Hsix.
    unfold Functor.Relu6Grad_elem, Functor.Relu6Grad_mask.
    rewrite Hpos, Hsix. now apply mul_one_binary32.
  - intros g x Hg Hpos Hsix.
    unfold Functor.Relu6Grad_elem, Functor.Relu6Grad_mask.
    rewrite Hpos, Hsix. now apply mul_one_binary16.
  - exact Hblock.
  - intros fmt g. split; apply Hblock.
    + left. unfold IEEE.gt. apply SFltb_irrefl.
    + right. unfold IEEE.lt. apply SFltb_irrefl.
  - intros fmt g x. unfold Functor.Relu6Grad_elem.
    now rewrite Relu6Grad_mask_Relu6.
Qed.

Lemma Relu6Grad_masks_gradient_witness :
  Functor.Relu6Grad_elem IEEE.binary32
    (IEEE.of_Z IEEE.binary32 5) (IEEE.of_Z IEEE.binary32 3)
  = IEEE.of_Z IEEE.binary32 5
  /\ Functor.Relu6Grad_elem IEEE.binary16
       (IEEE.of_Z IEEE.binary16 (-7)) (IEEE.of_Z IEEE.binary16 1)
     = IEEE.of_Z IEEE.binary16 (-7)
  /\ Functor.Relu6Grad_elem IEEE.binary32
       (IEEE.of_Z IEEE.binary32 (-7)) (IEEE.of_Z IEEE.binary32 8)
     = S754_zero true.
Proof.
  split; [|split].
  - apply (proj1 Relu6Grad_masks_gradient); reflexivity.
  - apply (proj1 (proj2 Relu6Grad_masks_gradient)); reflexivity.
  - apply (proj1 (proj2 (proj2 Relu6Grad_masks_gradient)) IEEE.binary32
             (IEEE.of_Z IEEE.binary32 (-7)) (IEEE.of_Z IEEE.binary32 8)).
    right. reflexivity.
Defined.

(** C7 as stated fails: with an infinite gradient the boundary feature
    [x = 6] does not give a zero. *)
Lemma Relu6Grad_infinite_gradient_at_boundary :
  Functor.Relu6Grad_mask IEEE.binary32 (IEEE.of_Z IEEE.binary32 6) = false
  /\ Functor.Relu6Grad_elem IEEE.binary32
       (S754_infinity false) (IEEE.of_Z IEEE.binary32 6) = S754_nan
  /\ Functor.Relu6Grad_elem IEEE.binary32
       (S754_infinity false) (IEEE.of_Z IEEE.binary32 6) <> S754_zero false
  /\ Functor.Relu6Grad_elem IEEE.binary32
       (S754_infinity false) (IEEE.of_Z IEEE.binary32 6) <> S754_zero true.
Proof. repeat split; vm_compute; congruence. Qed.

(** ** Launches: threads, stores and the grid-stride loop *)

Section LaunchFacts.

Import Gpu.

Lemma in_zrange (n i : Z) : In i (zrange n) <-> 0 <= i < n.
Proof.
  unfold zrange. rewrite in_map_iff. split.
  - intros (k & <- & Hk). apply in_seq in Hk. lia.
  - intros Hi. exists (Z.to_nat i). split; [lia|]. apply in_seq. lia.
Qed.

Lemma NoDup_zrange (n : Z) : NoDup (zrange n).
Proof.
  unfold zrange. apply Injective_map_NoDup.
  - intros a b Hab. lia.
  - apply seq_NoDup.
Qed.

Lemma in_threads (g b : Z) (t : thread) :
  In t (threads g b) <->
  gridDim_x t = g /\ blockDim_x t = b
  /\ 0 <= blockIdx_x t < g /\ 0 <= threadIdx_x t < b.
Proof.
  unfold threads. rewrite in_flat_map. split.
  - intros (bi & Hbi & Ht). apply in_map_iff in Ht.
    destruct Ht as (ti & <- & Hti).
    apply in_zrange in Hbi. apply in_zrange in Hti. cbn. lia.
  - intros (Hg & Hb & Hbi & Hti). exists (blockIdx_x t). split.
    + now apply in_zrange.
    + apply in_map_iff. exists (threadIdx_x t). split.
      * destruct t; cbn in *; now subst.
      * now apply in_zrange.
Qed.

Lemma NoDup_flat_map_disjoint {A B : Type} (f : A -> list B) (l : list A) :
  NoDup l ->
  (forall x, In x l -> NoDup (f x)) ->
  (forall x y b, In x l -> In y l -> In b (f x) -> In b (f y) -> x = y) ->
  NoDup (flat_map f l).
Proof.
  induction l as [|a l IH]; intros Hl Hf Hdis; cbn.
  - constructor.
  - inversion Hl as [|? ? Hnotin Hl']; subst.
    apply NoDup_app.
    + apply Hf. now left.
    + apply IH; auto.
      * intros x Hx. apply Hf. now right.
      * intros x y b0 Hx Hy. apply Hdis; now right.
    + intros b0 Hb0 Hin. apply in_flat_map in Hin.
      destruct Hin as (y & Hy & Hby).
      assert (a = y)
        by (apply (Hdis a y b0); [now left | now right | exact Hb0 | exact Hby]).
      subst y. contradiction.
Qed.

Lemma NoDup_threads (g b : Z) : NoDup (threads g b).
Proof.
  unfold threads. apply NoDup_flat_map_disjoint.
  - apply NoDup_zrange.
  - intros bi _. apply Injective_map_NoDup.
    + intros t1 t2 Heq. now inversion Heq.
    + apply NoDup_zrange.
  - intros b1 b2 t _ _ H1 H2.
    apply in_map_iff in H1. apply in_map_iff in H2.
    destruct H1 as (t1 & <- & _). destruct H2 as (t2 & Heq & _).
    now inversion Heq.
Qed.

(** On a grid of fewer than [2^31] threads the two [int32] quantities of a
    thread are the mathematical ones. *)
Lemma global_index_in_grid (g b : Z) (t : thread) :
  In t (threads g b) -> g * b < 2 ^ 31 ->
  global_index t = blockIdx_x t * b + threadIdx_x t
  /\ 0 <= global_index t < g * b
  /\ total_threads t = g * b.
Proof.
  intros Ht Hsmall. apply in_threads in Ht.
  destruct Ht as (Hg & Hb & Hbi & Hti).
  unfold global_index, total_threads. rewrite Hg, Hb.
  assert (0 <= blockIdx_x t * b + threadIdx_x t < g * b) by nia.
  rewrite !i32_small by lia. lia.
Qed.

Lemma global_index_injective (g b : Z) (t1 t2 : thread) :
  In t1 (threads g b) -> In t2 (threads g b) -> g * b < 2 ^ 31 ->
  global_index t1 = global_index t2 -> t1 = t2.
Proof.
  intros H1 H2 Hsmall Heq.
  destruct (global_index_in_grid g b t1 H1 Hsmall) as (E1 & _ & _).
  destruct (global_index_in_grid g b t2 H2 Hsmall) as (E2 & _ & _).
  apply in_threads in H1. apply in_threads in H2.
  destruct H1 as (Hg1 & Hb1 & Hbi1 & Hti1).
  destruct H2 as (Hg2 & Hb2 & Hbi2 & Hti2).
  rewrite E1, E2 in Heq.
  assert (blockIdx_x t1 = blockIdx_x t2) by nia.
  assert (threadIdx_x t1 = threadIdx_x t2) by nia.
  destruct t1, t2; cbn in *; congruence.
Qed.

(** Every index below the thread count is the global index of a thread. *)
Lemma thread_of_global_index (g b i : Z) :
  0 < b -> 0 <= i < g * b -> g * b < 2 ^ 31 ->
  exists t, In t (threads g b) /\ global_index t = i.
Proof.
  intros Hb Hi Hsmall.
  exists (Build_thread g b (i / b) (i mod b)).
  assert (Hin : In (Build_thread g b (i / b) (i mod b)) (threads g b)).
  { apply in_threads. cbn.
    pose proof (Z.mod_pos_bound i b Hb).
    pose proof (Z.div_mod i b ltac:(lia)).
    assert (0 <= i / b) by (apply Z.div_pos; lia).
    assert (i / b < g) by (apply Z.div_lt_upper_bound; nia).
    lia. }
  split; [exact Hin|].
  destruct (global_index_in_grid g b _ Hin Hsmall) as (E & _ & _).
  rewrite E. cbn. pose proof (Z.div_mod i b ltac:(lia)). lia.
Qed.

Lemma flat_map_nil {A B : Type} (l : list A) :
  flat_map (fun _ : A => @nil B) l = [].
Proof. induction l as [|a l IH]; [reflexivity | exact IH]. Qed.

Lemma run_threads_flat_map {E : Type} (kernel : thread -> option (list E))
      (f : thread -> list E) (ts : list thread) :
  (forall t, In t ts -> kernel t = Some (f t)) ->
  run_threads kernel ts = Some (flat_map f ts).
Proof.
  induction ts as [|t ts IH]; intros H; cbn.
  - reflexivity.
  - rewrite (H t) by now left.
    rewrite IH by (intros t' Ht'; apply H; now right).
    reflexivity.
Qed.

(** A buffer after stores whose value is a function of the index. *)
Lemma apply_stores_determined {A : Type} (F : Z -> A)
      (ws : list (store A)) :
  (forall i v, In (i, v) ws -> v = F i) ->
  forall (mem : Z -> A) (j : Z),
    apply_stores ws mem j
    = if existsb (Z.eqb j) (map fst ws) then F j else mem j.
Proof.
  induction ws as [|[i v] ws IH]; intros H mem j; cbn.
  - reflexivity.
  - rewrite IH by (intros i' v' Hin; apply H; now right).
    destruct (existsb (Z.eqb j) (map fst ws)) eqn:Hex.
    + now rewrite orb_true_r.
    + rewrite orb_false_r. destruct (Z.eqb_spec j i) as [->|]; [|reflexivity].
      apply H. now left.
Qed.

Lemma existsb_eqb_in (j : Z) (l : list Z) :
  existsb (Z.eqb j) l = true <-> In j l.
Proof.
  rewrite existsb_exists. split.
  - intros (x & Hx & Heq). apply Z.eqb_eq in Heq. now subst.
  - intros H. exists j. split; [exact H | apply Z.eqb_refl].
Qed.

(** Two lists of such stores over the same set of indices have the same
    effect. *)
Lemma apply_stores_same_indices {A : Type} (F : Z -> A)
      (ws1 ws2 : list (store A)) :
  (forall i v, In (i, v) ws1 -> v = F i) ->
  (forall i v, In (i, v) ws2 -> v = F i) ->
  (forall i, In i (map fst ws1) <-> In i (map fst ws2)) ->
  forall (mem : Z -> A) (j : Z),
    apply_stores ws1 mem j = apply_stores ws2 mem j.
Proof.
  intros H1 H2 Hsame mem j.
  rewrite (apply_stores_determined F ws1 H1).
  rewrite (apply_stores_determined F ws2 H2).
  destruct (existsb (Z.eqb j) (map fst ws1)) eqn:E1.
  - apply existsb_eqb_in in E1. apply Hsame in E1.
    apply existsb_eqb_in in E1. now rewrite E1.
  - destruct (existsb (Z.eqb j) (map fst ws2)) eqn:E2; [|reflexivity].
    apply existsb_eqb_in in E2. apply Hsame in E2.
    apply existsb_eqb_in in E2. congruence.
Qed.

(** The grid-stride loop: with a positive stride, no [int32] overflow and
    [n - index] units of fuel it terminates; it runs the body at
    [index, index + stride, ...] below [n] and leaves the first such index
    that is not below [n]. *)
Lemma grid_stride_spec (stride n : Z) (fuel : nat) :
  0 < stride -> n + stride <= 2 ^ 31 ->
  forall index,
    0 <= index < 2 ^ 31 ->
    (Z.to_nat (n - index) <= fuel)%nat ->
    exists visited final,
      grid_stride fuel index stride n = Some (visited, final)
      /\ (forall c, In c visited <->
                    index <= c < n /\ exists k, 0 <= k /\ c = index + k * stride)
      /\ NoDup visited
      /\ n <= final /\ index <= final
      /\ (final < n + stride \/ final = index)
      /\ (exists k, 0 <= k /\ final = index + k * stride).
Proof.
  intros Hstride Hn.
  assert (Hdone : forall fuel' index, n <= index ->
            exists visited final,
              grid_stride fuel' index stride n = Some (visited, final)
              /\ (forall c, In c visited <->
                    index <= c < n
                    /\ exists k, 0 <= k /\ c = index + k * stride)
              /\ NoDup visited
              /\ n <= final /\ index <= final
              /\ (final < n + stride \/ final = index)
              /\ (exists k, 0 <= k /\ final = index + k * stride)).
  { intros fuel' index Hge. exists [], index.
    split.
    { destruct fuel'; cbn; destruct (Z.ltb_spec index n); (lia || reflexivity). }
    split; [intros c; split; [intros [] | intros [? _]; lia]|].
    split; [constructor|].
    split; [lia|]. split; [lia|]. split; [now right|].
    exists 0. lia. }
  induction fuel as [|fuel IH]; intros index Hindex Hfuel.
  - apply Hdone. lia.
  - destruct (Z.lt_ge_cases index n) as [Hlt | Hge]; [|now apply Hdone].
    destruct (IH (index + stride)) as (visited & final & Hrun & Hin & Hnd
                                       & Hfn & Hfi & Hfb & k & Hk & Hfk);
      [lia | lia |].
    exists (index :: visited), final.
    split.
    { cbn. destruct (Z.ltb_spec index n); [|lia].
      rewrite i32_small by lia. now rewrite Hrun. }
    split.
    { intros c. cbn. rewrite Hin. split.
      - intros [<- | ((Hc1 & Hc2) & k' & Hk' & ->)].
        + split; [lia|]. exists 0. lia.
        + split; [lia|]. exists (k' + 1). lia.
      - intros ((Hc1 & Hc2) & k' & Hk' & ->).
        destruct (Z.eq_dec k' 0) as [-> | Hnz]; [left; lia|].
        right. split; [nia|]. exists (k' - 1). lia. }
    split; [constructor; [rewrite Hin; lia | exact Hnd]|].
    split; [lia|]. split; [lia|].
    split; [left; lia|].
    exists (k + 1). lia.
Qed.

End LaunchFacts.

(** ** The half-precision ReluGrad kernels *)

Ltac div_lia := Z.div_mod_to_equations; lia.
Ltac div_nia := Z.div_mod_to_equations; nia.

Lemma stride_exit_unique (T h i k kf final : Z) :
  0 < T -> 0 <= k -> 0 <= kf ->
  h = i + k * T -> final = i + kf * T ->
  h <= final -> (final < h + T \/ final = i) ->
  final = h.
Proof.
  intros HT Hk Hkf Hh Hf Hle [Hlt | Heq].
  - assert (Hd : 0 <= (kf - k) * T < T) by lia.
    assert (kf - k = 0) by nia.
    assert (kf = k) by lia. subst kf. lia.
  - assert (k * T <= 0) by lia.
    assert (k = 0) by nia. subst k. lia.
Qed.

Section ReluGradHalfFacts.

Import Half Gpu ReluGradHalf.

Lemma relu_grad_half2_lanes (native : bool) (gh fh : half2) :
  relu_grad_half2 native gh fh
  = (relu_grad_lane native (fst gh) (fst fh),
     relu_grad_lane native (snd gh) (snd fh)).
Proof. destruct native; reflexivity. Qed.

Lemma relu_grad_lane_fallback (g f : half) :
  relu_grad_lane false g f = relu_grad_scalar g f.
Proof. reflexivity. Qed.

Lemma run_threads_defined {E : Type} (kernel : thread -> option (list E))
      (ts : list thread) :
  (forall t, In t ts -> exists ws, kernel t = Some ws) ->
  run_threads kernel ts
  = Some (flat_map (fun t => match kernel t with
                             | Some ws => ws
                             | None => []
                             end) ts).
Proof.
  intros H. apply run_threads_flat_map. intros t Ht.
  destruct (H t Ht) as (ws & ->). reflexivity.
Qed.

Lemma shiftr_1_div (count : Z) : Z.shiftr count 1 = count / 2.
Proof. now rewrite Z.shiftr_div_pow2 by lia. Qed.

Lemma land_1_mod (count : Z) : Z.land count 1 = count mod 2.
Proof. change 1 with (Z.ones 1) at 1. now rewrite Z.land_ones by lia. Qed.

Section Paired.

Variables (native : bool) (fuel : nat) (gradient feature : Z -> half).
Variables (count g b : Z).

Hypothesis count_pos : 0 < count < 2 ^ 31.
Hypothesis grid_pos : 0 < g.
Hypothesis block_pos : 0 < b.
Hypothesis no_overflow : count / 2 + g * b < 2 ^ 31.
Hypothesis enough_fuel : (Z.to_nat (count / 2) <= fuel)%nat.

Lemma paired_thread_spec (t : thread) :
  In t (threads g b) ->
  exists ws,
    ReluGradHalfKernel native fuel gradient feature count t = Some ws
    /\ NoDup (map fst ws)
    /\ (forall j, In j (map fst ws) <->
                  0 <= j < count
                  /\ exists k, 0 <= k /\ j / 2 = global_index t + k * (g * b))
    /\ (forall j v, In (j, v) ws ->
                    v = paired_result native gradient feature count j).
Proof.
  intros Ht.
  assert (Hsmall : g * b < 2 ^ 31).
  { assert (0 <= count / 2) by (apply Z.div_pos; lia). lia. }
  destruct (global_index_in_grid g b t Ht Hsmall) as (_ & Hidx & Htot).
  assert (Hh : 0 <= count / 2) by (apply Z.div_pos; lia).
  destruct (grid_stride_spec (g * b) (count / 2) fuel ltac:(nia) ltac:(lia)
              (global_index t) ltac:(lia) ltac:(lia))
    as (visited & final & Hrun & Hin & Hnd & Hfn & Hfi & Hfb & kf & Hkf & Hfk).
  unfold ReluGradHalfKernel.
  rewrite shiftr_1_div, land_1_mod, Htot, Hrun.
  eexists. split; [reflexivity|].
  match goal with
  | |- context [?p ++ ?q] => set (pairs := p); set (tail := q)
  end.
  assert (Hpairs : forall j v, In (j, v) pairs <->
            exists c, In c visited
                      /\ ((j = 2 * c
                           /\ v = relu_grad_lane native (gradient (2 * c))
                                                 (feature (2 * c)))
                          \/ (j = 2 * c + 1
                              /\ v = relu_grad_lane native
                                       (gradient (2 * c + 1))
                                       (feature (2 * c + 1))))).
  { intros j v. unfold pairs. rewrite in_flat_map.
    split.
    - intros (c & Hc & Hjv). exists c. split; [exact Hc|].
      rewrite relu_grad_half2_lanes in Hjv. cbn in Hjv.
      destruct Hjv as [Heq | [Heq | []]]; inversion Heq; subst; auto.
    - intros (c & Hc & Hjv). exists c. split; [exact Hc|].
      rewrite relu_grad_half2_lanes. cbn.
      destruct Hjv as [[-> ->] | [-> ->]]; auto. }
  assert (Htail : forall j v, In (j, v) tail <->
            count mod 2 = 1 /\ final = count / 2 /\ j = count - 1
            /\ v = relu_grad_scalar (gradient (count - 1))
                                    (feature (count - 1))).
  { intros j v. unfold tail.
    destruct (Z.eqb_spec (count mod 2) 1) as [Hodd | Heven];
      destruct (Z.eqb_spec final (count / 2)) as [Hfin | Hfin];
      cbn [andb]; split.
    - intros [Heq | []]. inversion Heq; subst. auto.
    - intros (_ & _ & -> & ->). now left.
    - intros [].
    - intros (_ & Hbad & _). contradiction.
    - intros [].
    - intros (Hbad & _). contradiction.
    - intros [].
    - intros (Hbad & _). contradiction. }
  assert (Hfst : forall j, In j (map fst (pairs ++ tail)) <->
                           exists v, In (j, v) pairs \/ In (j, v) tail).
  { intros j. rewrite in_map_iff. split.
    - intros ([j' v] & Hj & Hinjv). cbn in Hj. subst j'.
      exists v. now apply in_app_or.
    - intros (v & Hjv). exists (j, v). split; [reflexivity|].
      apply in_or_app. exact Hjv. }
  split; [|split].
  - (* each offset at most once *)
    rewrite map_app. apply NoDup_app.
    + unfold pairs. rewrite flat_map_concat_map, concat_map, map_map.
      rewrite <- flat_map_concat_map.
      apply NoDup_flat_map_disjoint; [exact Hnd | |].
      * intros c _. unfold store_half2. cbn [map fst].
        constructor; [cbn [In]; div_lia|].
        constructor; [intros []|constructor].
      * intros c1 c2 j _ _ H1 H2. unfold store_half2 in H1, H2.
        cbn [map fst In] in H1, H2. div_lia.
    + unfold tail. destruct (_ && _); cbn; repeat constructor. intros [].
    + intros j Hj1 Hj2.
      apply in_map_iff in Hj1. destruct Hj1 as ([j1 v1] & E1 & Hj1).
      apply in_map_iff in Hj2. destruct Hj2 as ([j2 v2] & E2 & Hj2).
      cbn in E1, E2. subst j1 j2.
      apply Hpairs in Hj1. apply Htail in Hj2.
      destruct Hj1 as (c & Hc & Hjc). apply Hin in Hc.
      destruct Hc as (Hc & _).
      destruct Hj2 as (Hodd & _ & Hj & _).
      destruct Hjc as [[Hjc _] | [Hjc _]]; div_lia.
  - intros j. rewrite Hfst. split.
    + intros (v & [Hp | Htl]).
      * apply Hpairs in Hp. destruct Hp as (c & Hc & Hjc).
        apply Hin in Hc. destruct Hc as (Hc & k & Hk & Hck).
        split; [div_lia|]. exists k. split; [exact Hk|].
        rewrite <- Hck. div_lia.
      * apply Htail in Htl. destruct Htl as (Hodd & Hfin & -> & _).
        split; [div_lia|]. exists kf. split; [exact Hkf|].
        rewrite <- Hfk, Hfin. div_lia.
    + intros (Hj & k & Hk & Hjk).
      destruct (Z.lt_ge_cases (j / 2) (count / 2)) as [Hlt | Hge].
      * assert (Hc : In (j / 2) visited).
        { apply Hin. split; [div_lia|]. exists k. auto. }
        destruct (Z.eq_dec j (2 * (j / 2))) as [He | Ho].
        -- eexists. left. apply Hpairs. exists (j / 2).
           split; [exact Hc|]. left. split; [exact He | reflexivity].
        -- eexists. left. apply Hpairs. exists (j / 2).
           split; [exact Hc|]. right. split; [div_lia | reflexivity].
      * eexists. right. apply Htail.
        assert (Hodd : count mod 2 = 1) by div_lia.
        assert (Hjc : j = count - 1) by div_lia.
        assert (Hhalf : j / 2 = count / 2) by div_lia.
        split; [exact Hodd|]. split; [|split; [exact Hjc | reflexivity]].
        rewrite Hhalf in Hjk.
        apply (stride_exit_unique (g * b) (count / 2) (global_index t) k kf);
          auto; nia.
  - intros j v Hjv. apply in_app_or in Hjv. unfold paired_result.
    rewrite shiftr_1_div.
    destruct Hjv as [Hp | Htl].
    + apply Hpairs in Hp. destruct Hp as (c & Hc & Hjc).
      apply Hin in Hc.
      destruct (Z.ltb_spec j (2 * (count / 2))) as [_ | Hbad]; [|div_lia].
      destruct Hjc as [[-> ->] | [-> ->]]; reflexivity.
    + apply Htail in Htl. destruct Htl as (Hodd & _ & -> & ->).
      destruct (Z.ltb_spec (count - 1) (2 * (count / 2))) as [Hbad | _];
        [div_lia | reflexivity].
Qed.

Lemma post_loop_index_spec (t : thread) :
  In t (threads g b) ->
  exists final,
    post_loop_index fuel count t = Some final
    /\ (final = count / 2 <->
        exists k, 0 <= k /\ count / 2 = global_index t + k * (g * b)).
Proof.
  intros Ht.
  assert (Hh : 0 <= count / 2) by (apply Z.div_pos; lia).
  assert (Hsmall : g * b < 2 ^ 31) by lia.
  destruct (global_index_in_grid g b t Ht Hsmall) as (_ & Hidx & Htot).
  destruct (grid_stride_spec (g * b) (count / 2) fuel ltac:(nia) ltac:(lia)
              (global_index t) ltac:(lia) ltac:(lia))
    as (visited & final & Hrun & _ & _ & Hfn & Hfi & Hfb & kf & Hkf & Hfk).
  exists final. unfold post_loop_index.
  rewrite shiftr_1_div, Htot, Hrun. split; [reflexivity|]. split.
  - intros <-. exists kf. auto.
  - intros (k & Hk & Hhk).
    apply (stride_exit_unique (g * b) (count / 2) (global_index t) k kf);
      auto; nia.
Qed.

Lemma paired_launch_spec :
  exists ws,
    GpuLaunchKernel (ReluGradHalfKernel native fuel gradient feature count)
                    g b = Some ws
    /\ NoDup (map fst ws)
    /\ (forall j, In j (map fst ws) <-> 0 <= j < count)
    /\ (forall j v, In (j, v) ws ->
                    v = paired_result native gradient feature count j).
Proof.
  assert (Hh : 0 <= count / 2) by (apply Z.div_pos; lia).
  assert (Hsmall : g * b < 2 ^ 31) by lia.
  assert (HT : 0 < g * b) by nia.
  unfold GpuLaunchKernel.
  rewrite run_threads_defined
    by (intros t Ht; destruct (paired_thread_spec t Ht) as (ws & E & _);
        now exists ws).
  eexists. split; [reflexivity|].
  set (W := fun t => match ReluGradHalfKernel native fuel gradient feature
                             count t with
                     | Some ws => ws
                     | None => []
                     end).
  assert (HW : forall t, In t (threads g b) ->
             NoDup (map fst (W t))
             /\ (forall j, In j (map fst (W t)) <->
                   0 <= j < count
                   /\ exists k, 0 <= k
                                /\ j / 2 = global_index t + k * (g * b))
             /\ (forall j v, In (j, v) (W t) ->
                   v = paired_result native gradient feature count j)).
  { intros t Ht. destruct (paired_thread_spec t Ht) as (ws & E & H).
    unfold W. rewrite E. exact H. }
  assert (Hmap : map fst (flat_map W (threads g b))
                 = flat_map (fun t => map fst (W t)) (threads g b)).
  { rewrite !flat_map_concat_map, concat_map, map_map. reflexivity. }
  rewrite Hmap. split; [|split].
  - apply NoDup_flat_map_disjoint.
    + apply NoDup_threads.
    + intros t Ht. apply (HW t Ht).
    + intros t1 t2 j Ht1 Ht2 Hj1 Hj2.
      apply (HW t1 Ht1) in Hj1. apply (HW t2 Ht2) in Hj2.
      destruct Hj1 as (_ & k1 & Hk1 & E1).
      destruct Hj2 as (_ & k2 & Hk2 & E2).
      destruct (global_index_in_grid g b t1 Ht1 Hsmall) as (_ & R1 & _).
      destruct (global_index_in_grid g b t2 Ht2 Hsmall) as (_ & R2 & _).
      apply (global_index_injective g b); auto.
      assert (Hd : (k1 - k2) * (g * b)
                   = global_index t2 - global_index t1) by lia.
      assert (k1 - k2 = 0) by nia. lia.
  - intros j. rewrite in_flat_map. split.
    + intros (t & Ht & Hj). now apply (HW t Ht) in Hj.
    + intros Hj.
      assert (Hc : 0 <= j / 2) by (apply Z.div_pos; lia).
      pose proof (Z.mod_pos_bound (j / 2) (g * b) HT) as Hmod.
      destruct (thread_of_global_index g b ((j / 2) mod (g * b)))
        as (t & Ht & Hgi); auto.
      exists t. split; [exact Ht|]. apply (HW t Ht). split; [exact Hj|].
      exists (j / 2 / (g * b)). split.
      * apply Z.div_pos; lia.
      * rewrite Hgi. pose proof (Z.div_mod (j / 2) (g * b)). lia.
  - intros j v Hjv. apply in_flat_map in Hjv.
    destruct Hjv as (t & Ht & Hjv). now apply (HW t Ht) in Hjv.
Qed.

Lemma paired_tail_thread_unique :
  count mod 2 = 1 ->
  exists t,
    In t (threads g b)
    /\ post_loop_index fuel count t = Some (count / 2)
    /\ (forall t', In t' (threads g b) ->
                   post_loop_index fuel count t' = Some (count / 2) ->
                   t' = t).
Proof.
  intros Hodd.
  assert (Hh : 0 <= count / 2) by (apply Z.div_pos; lia).
  assert (Hsmall : g * b < 2 ^ 31) by lia.
  assert (HT : 0 < g * b) by nia.
  pose proof (Z.mod_pos_bound (count / 2) (g * b) HT) as Hmod.
  destruct (thread_of_global_index g b ((count / 2) mod (g * b)))
    as (t & Ht & Hgi); auto.
  exists t. split; [exact Ht|]. split.
  - destruct (post_loop_index_spec t Ht) as (final & E & Hiff).
    rewrite E. f_equal. apply Hiff.
    exists (count / 2 / (g * b)). split.
    + apply Z.div_pos; lia.
    + rewrite Hgi. pose proof (Z.div_mod (count / 2) (g * b)). lia.
  - intros t' Ht' E'.
    destruct (post_loop_index_spec t' Ht') as (final & E & Hiff).
    rewrite E in E'. inversion E'; subst final.
    destruct (proj1 Hiff eq_refl) as (k & Hk & Hhk).
    destruct (global_index_in_grid g b t' Ht' Hsmall) as (_ & R' & _).
    apply (global_index_injective g b); auto.
    rewrite Hgi.
    apply (Z.mod_unique_pos _ _ k); lia.
Qed.

End Paired.

Section Vector.

Variables (native : bool) (gradient feature : Z -> half).
Variables (count g b : Z).

Hypothesis count_pos : 0 < count < 2 ^ 31.
Hypothesis block_pos : 0 < b.
Hypothesis grid_small : g * b < 2 ^ 31.
Hypothesis covers_vectors : count / 8 <= g * b.
Hypothesis covers_rest : count mod 8 <= g * b.

Lemma vector_thread_spec (t : thread) :
  In t (threads g b) ->
  exists ws,
    ReluGradHalfKernelVector native gradient feature count t = Some ws
    /\ (forall j, In j (map fst ws) <->
          (global_index t < count / 8
           /\ 8 * global_index t <= j < 8 * global_index t + 8)
          \/ (global_index t < count mod 8
              /\ j = 8 * (count / 8) + global_index t))
    /\ (forall j v, In (j, v) ws ->
          v = vector_result native gradient feature count j).
Proof.
  intros Ht.
  destruct (global_index_in_grid g b t Ht grid_small) as (_ & Hidx & _).
  unfold ReluGradHalfKernelVector, vector_result, VectorSizeElements.
  rewrite Z.quot_div_nonneg, Z.rem_mod_nonneg by lia.
  change (zrange (Z.quot 8 2)) with [0; 1; 2; 3].
  eexists. split; [reflexivity|].
  generalize (global_index t) Hidx. intros i Hi.
  cbn [flat_map]. rewrite !relu_grad_half2_lanes.
  unfold store_half2, load_half2. cbn [fst snd app].
  assert (Hq : 0 <= count / 8) by (apply Z.div_pos; lia).
  pose proof (Z.mod_pos_bound count 8 ltac:(lia)) as Hr.
  pose proof (Z.div_mod count 8 ltac:(lia)) as Hdm.
  split.
  - intros j.
    destruct (Z.ltb_spec i (count / 8)) as [Hv | Hv];
      destruct (Z.ltb_spec i (count mod 8)) as [Hs | Hs];
      cbn [map fst app In]; lia.
  - intros j v.
    destruct (Z.ltb_spec i (count / 8)) as [Hv | Hv];
      destruct (Z.ltb_spec i (count mod 8)) as [Hs | Hs];
      cbn [app In]; intros Hjv;
      repeat (destruct Hjv as [Hjv | Hjv];
              [apply pair_equal_spec in Hjv; destruct Hjv as [<- <-]|]);
      try contradiction.
    all: match goal with
         | |- context [if ?a <? ?c then _ else _] =>
             destruct (Z.ltb_spec a c); [try reflexivity | try reflexivity];
             try lia
         end.
Qed.

Lemma vector_launch_spec :
  exists ws,
    GpuLaunchKernel (ReluGradHalfKernelVector native gradient feature count)
                    g b = Some ws
    /\ (forall j, In j (map fst ws) <-> 0 <= j < count)
    /\ (forall j v, In (j, v) ws ->
          v = vector_result native gradient feature count j).
Proof.
  assert (Hq : 0 <= count / 8) by (apply Z.div_pos; lia).
  pose proof (Z.mod_pos_bound count 8 ltac:(lia)) as Hr.
  pose proof (Z.div_mod count 8 ltac:(lia)) as Hdm.
  unfold GpuLaunchKernel.
  rewrite run_threads_defined
    by (intros t Ht; destruct (vector_thread_spec t Ht) as (ws & E & _);
        now exists ws).
  eexists. split; [reflexivity|].
  set (W := fun t => match ReluGradHalfKernelVector native gradient feature
                             count t with
                     | Some ws => ws
                     | None => []
                     end).
  assert (HW : forall t, In t (threads g b) ->
             (forall j, In j (map fst (W t)) <->
                (global_index t < count / 8
                 /\ 8 * global_index t <= j < 8 * global_index t + 8)
                \/ (global_index t < count mod 8
                    /\ j = 8 * (count / 8) + global_index t))
             /\ (forall j v, In (j, v) (W t) ->
                   v = vector_result native gradient feature count j)).
  { intros t Ht. destruct (vector_thread_spec t Ht) as (ws & E & H).
    unfold W. rewrite E. exact H. }
  assert (Hmap : map fst (flat_map W (threads g b))
                 = flat_map (fun t => map fst (W t)) (threads g b)).
  { rewrite !flat_map_concat_map, concat_map, map_map. reflexivity. }
  rewrite Hmap. split.
  - intros j. rewrite in_flat_map. split.
    + intros (t & Ht & Hj). apply (HW t Ht) in Hj.
      destruct (global_index_in_grid g b t Ht grid_small) as (_ & Hidx & _).
      lia.
    + intros Hj.
      destruct (Z.lt_ge_cases j (8 * (count / 8))) as [Hv | Hs].
      * assert (Hjq : 0 <= j / 8 < count / 8) by div_lia.
        destruct (thread_of_global_index g b (j / 8))
          as (t & Ht & Hgi); auto; [lia|].
        exists t. split; [exact Ht|]. apply (HW t Ht). left.
        rewrite Hgi. div_lia.
      * destruct (thread_of_global_index g b (j - 8 * (count / 8)))
          as (t & Ht & Hgi); auto; [lia|].
        exists t. split; [exact Ht|]. apply (HW t Ht). right.
        rewrite Hgi. lia.
  - intros j v Hjv. apply in_flat_map in Hjv.
    destruct Hjv as (t & Ht & Hjv). now apply (HW t Ht) in Hjv.
Qed.

End Vector.

End ReluGradHalfFacts.

Section ReluGradHalfTheorems.

Import Half Gpu ReluGradHalf.

Lemma paired_thread_tail_iff (native : bool) (fuel : nat)
      (gradient feature : Z -> half) (count g b : Z) (t : thread)
      (ws : list (store half)) :
  0 < count < 2 ^ 31 -> 0 < g -> 0 < b ->
  count / 2 + g * b < 2 ^ 31 ->
  (Z.to_nat (count / 2) <= fuel)%nat ->
  count mod 2 = 1 ->
  In t (threads g b) ->
  ReluGradHalfKernel native fuel gradient feature count t = Some ws ->
  (In (count - 1) (map fst ws) <->
   post_loop_index fuel count t = Some (count / 2)).
Proof.
  intros Hc Hg Hb Hov Hfuel Hodd Ht Hws.
  destruct (paired_thread_spec native fuel gradient feature count g b
              Hc Hg Hb Hov Hfuel t Ht) as (ws' & E & _ & Hin & _).
  rewrite E in Hws. inversion Hws; subst ws'.
  destruct (post_loop_index_spec fuel count g b Hc Hg Hb Hov Hfuel t Ht)
    as (final & Ep & Hiff).
  rewrite Ep, Hin.
  assert (Hhalf : (count - 1) / 2 = count / 2) by div_lia.
  rewrite Hhalf. split.
  - intros (_ & Hk). f_equal. now apply Hiff.
  - intros Heq. inversion Heq; subst final.
    split; [lia|]. now apply Hiff.
Qed.

(** C10.  In a launch of the paired half2 kernel on any grid ([g] blocks
    of [b] threads, no [int32] overflow in the loop index) every offset of
    [[0, count)] is stored exactly once and no other offset is stored.  When
    [count] is odd, exactly one thread leaves its grid-stride loop at index
    [count / 2], and a thread stores the last element if and only if it is
    that thread. *)
Theorem ReluGradHalfKernel_stores_each_index_once
        (native : bool) (fuel : nat) (gradient feature : Z -> half)
        (count g b : Z) :
  0 < count < 2 ^ 31 -> 0 < g -> 0 < b ->
  count / 2 + g * b < 2 ^ 31 ->
  (Z.to_nat (count / 2) <= fuel)%nat ->
  exists ws,
    GpuLaunchKernel (ReluGradHalfKernel native fuel gradient feature count)
                    g b = Some ws
    /\ NoDup (map fst ws)
    /\ (forall j, In j (map fst ws) <-> 0 <= j < count)
    /\ (count mod 2 = 1 ->
        exists t,
          In t (threads g b)
          /\ post_loop_index fuel count t = Some (count / 2)
          /\ (forall t', In t' (threads g b) ->
                post_loop_index fuel count t' = Some (count / 2) -> t' = t)
          /\ (forall t' ws', In t' (threads g b) ->
                ReluGradHalfKernel native fuel gradient feature count t'
                = Some ws' ->
                (In (count - 1) (map fst ws') <-> t' = t))).
Proof.
  intros Hc Hg Hb Hov Hfuel.
  destruct (paired_launch_spec native fuel gradient feature count g b
              Hc Hg Hb Hov Hfuel) as (ws & E & Hnd & Hin & _).
  exists ws. split; [exact E|]. split; [exact Hnd|]. split; [exact Hin|].
  intros Hodd.
  destruct (paired_tail_thread_unique fuel count g b Hc Hg Hb Hov Hfuel Hodd)
    as (t & Ht & Hpost & Huniq).
  exists t. split; [exact Ht|]. split; [exact Hpost|]. split; [exact Huniq|].
  intros t' ws' Ht' Hws'.
  rewrite (paired_thread_tail_iff native fuel gradient feature count g b
             t' ws' Hc Hg Hb Hov Hfuel Hodd Ht' Hws').
  split.
  - now apply Huniq.
  - now intros ->.
Qed.

Lemma ReluGradHalfKernel_stores_each_index_once_witness :
  exists ws,
    GpuLaunchKernel
      (ReluGradHalfKernel true 2 (fun _ => 0x3C00) (fun _ => 0x3C00) 5)
      1 2 = Some ws
    /\ NoDup (map fst ws)
    /\ (forall j, In j (map fst ws) <-> 0 <= j < 5)
    /\ (5 mod 2 = 1 ->
        exists t,
          In t (threads 1 2)
          /\ post_loop_index 2 5 t = Some (5 / 2)
          /\ (forall t', In t' (threads 1 2) ->
                post_loop_index 2 5 t' = Some (5 / 2) -> t' = t)
          /\ (forall t' ws', In t' (threads 1 2) ->
                ReluGradHalfKernel true 2 (fun _ => 0x3C00)
                                   (fun _ => 0x3C00) 5 t' = Some ws' ->
                (In (5 - 1) (map fst ws') <-> t' = t))).
Proof.
  apply (ReluGradHalfKernel_stores_each_index_once
           true 2%nat (fun _ => 0x3C00) (fun _ => 0x3C00) 5 1 2).
  - split; reflexivity.
  - reflexivity.
  - reflexivity.
  - reflexivity.
  - vm_compute. apply le_n.
Defined.

(** Scenario S4: five elements at an unaligned address, gradients all
    [1.0], features [[-1; 0; 0.5; 2; -0.1]]; the launcher takes the paired
    kernel and the buffer ends as [[0; 0; 1; 1; 0]]. *)
Example ReluGrad_half_S4 :
  let config := fun work threads =>
                  {| block_count := Int.divup work threads;
                     thread_per_block := threads |} in
  let feature := fun j => nth (Z.to_nat j)
                              [0xBC00; 0; 0x3800; 0x4000; 0xAE66] 0 in
  option_map (fun ws => map (apply_stores ws (fun _ => 0x7E00)) (zrange 5))
             (ReluGrad config true 3 2 16 32 (fun _ => 0x3C00) feature 5)
  = Some [0; 0; 0x3C00; 0x3C00; 0].
Proof. vm_compute. reflexivity. Qed.

Lemma paired_vector_result_agree (native : bool)
      (gradient feature : Z -> half) (count j : Z) :
  0 < count ->
  native = false \/ count mod 8 <= 1 ->
  paired_result native gradient feature count j
  = vector_result native gradient feature count j.
Proof.
  intros Hc [-> | Hr].
  - unfold paired_result, vector_result.
    rewrite relu_grad_lane_fallback.
    now destruct (_ <? _), (_ <? _).
  - unfold paired_result, vector_result, VectorSizeElements.
    rewrite shiftr_1_div, Z.quot_div_nonneg by lia.
    replace (2 * (count / 2)) with (8 * (count / 8)) by div_lia.
    reflexivity.
Qed.

(** The grid of the vector kernel, while [count + 7] fits [int32]. *)
Lemma vector_launch_geometry (count : Z) :
  0 < count <= 2 ^ 31 - 8 ->
  let kBlock := Int.divup (Int.divup count VectorSizeElements) kThreadInBlock in
  kBlock * kThreadInBlock < 2 ^ 31
  /\ count / 8 <= kBlock * kThreadInBlock
  /\ count mod 8 <= kBlock * kThreadInBlock.
Proof.
  intros Hc. unfold VectorSizeElements, kThreadInBlock. cbv zeta.
  rewrite (divup_small count 8) by lia.
  assert (0 <= (count + 8 - 1) / 8 < 2 ^ 28) by div_lia.
  rewrite divup_small by lia.
  div_lia.
Qed.

Lemma paired_kernel_empty (native : bool) (fuel : nat)
      (gradient feature : Z -> half) (g b : Z) (t : thread) :
  In t (threads g b) -> g * b < 2 ^ 31 ->
  ReluGradHalfKernel native fuel gradient feature 0 t = Some [].
Proof.
  intros Ht Hsmall.
  destruct (global_index_in_grid g b t Ht Hsmall) as (_ & Hidx & _).
  unfold ReluGradHalfKernel.
  change (Z.shiftr 0 1) with 0. change (Z.land 0 1 =? 1) with false.
  assert (Hrun : grid_stride fuel (global_index t) (total_threads t) 0
                 = Some ([], global_index t)).
  { destruct fuel; cbn; destruct (Z.ltb_spec (global_index t) 0);
      (lia || reflexivity). }
  rewrite Hrun. reflexivity.
Qed.

(** X17.  Where both kernels send every element through the same path: when
    [count mod 8] is 0 or 1 the half2 steps of the paired kernel and the
    vector lanes cover the same offsets, [2 * (count / 2) = 8 * (count / 8)],
    and the two kernels leave the same [backprop] buffer whatever the
    contents and the build.  The paired kernel runs on any grid, the vector
    kernel on the grid its launcher computes; [count + 7] fits [int32]. *)
Theorem ReluGradHalf_kernels_agree_same_path
        (native : bool) (fuel : nat) (gradient feature backprop : Z -> half)
        (count g b : Z) :
  0 <= count <= 2 ^ 31 - 8 -> 0 < g -> 0 < b ->
  count / 2 + g * b < 2 ^ 31 ->
  (Z.to_nat (count / 2) <= fuel)%nat ->
  count mod 8 <= 1 ->
  exists wp wv,
    GpuLaunchKernel (ReluGradHalfKernel native fuel gradient feature count)
                    g b = Some wp
    /\ GpuLaunchKernel
         (ReluGradHalfKernelVector native gradient feature count)
         (Int.divup (Int.divup count VectorSizeElements) kThreadInBlock)
         kThreadInBlock = Some wv
    /\ forall j, apply_stores wp backprop j = apply_stores wv backprop j.
Proof.
  intros Hc0 Hg Hb Hov Hfuel Hcfg.
  destruct (Z.eq_dec count 0) as [-> | Hnz].
  { exists [], []. split; [|split; reflexivity].
    unfold GpuLaunchKernel.
    rewrite (run_threads_flat_map _ (fun _ => [])).
    - now rewrite flat_map_nil.
    - intros t Ht. apply (paired_kernel_empty native fuel _ _ g b t Ht).
      change (0 / 2) with 0 in Hov. lia. }
  assert (Hc : 0 < count < 2 ^ 31) by lia.
  assert (Hc8 : 0 < count <= 2 ^ 31 - 8) by lia.
  destruct (paired_launch_spec native fuel gradient feature count g b
              Hc Hg Hb Hov Hfuel) as (wp & Ep & _ & Hinp & Hvp).
  destruct (vector_launch_geometry count Hc8) as (G1 & G2 & G3).
  destruct (vector_launch_spec native gradient feature count _ kThreadInBlock
              Hc ltac:(reflexivity) G1 G2 G3) as (wv & Ev & Hinv & Hvv).
  exists wp, wv. split; [exact Ep|]. split; [exact Ev|].
  intros j.
  apply (apply_stores_same_indices
           (vector_result native gradient feature count)).
  - intros i v Hiv. rewrite <- paired_vector_result_agree by (lia || auto).
    now apply Hvp.
  - exact Hvv.
  - intros i. now rewrite Hinp, Hinv.
Qed.

Lemma ReluGradHalf_kernels_agree_same_path_witness :
  exists wp wv,
    GpuLaunchKernel
      (ReluGradHalfKernel true 5 (fun _ => 0xBC00) (fun _ => 0xBC00) 9)
      1 2 = Some wp
    /\ GpuLaunchKernel
         (ReluGradHalfKernelVector true (fun _ => 0xBC00)
                                   (fun _ => 0xBC00) 9)
         (Int.divup (Int.divup 9 VectorSizeElements) kThreadInBlock)
         kThreadInBlock = Some wv
    /\ forall j, apply_stores wp (fun _ => 0) j
                 = apply_stores wv (fun _ => 0) j.
Proof.
  apply (ReluGradHalf_kernels_agree_same_path
           true 5%nat (fun _ => 0xBC00) (fun _ => 0xBC00) (fun _ => 0) 9 1 2).
  - lia.
  - reflexivity.
  - reflexivity.
  - reflexivity.
  - vm_compute. repeat constructor.
  - vm_compute. discriminate.
Defined.

(** C4: what the code does.  Built with the native half2 primitives, the
    result of the launcher depends on the alignment of the data.  For two
    elements with gradient [-1.0] and feature [-1.0] the paired kernel
    (data not on a 16-byte boundary) stores [-0.0], pattern [0x8000], the
    product [mask * gradient]; the vector kernel (aligned data) sends the
    same two elements through its scalar path and stores [+0.0].  The
    fallback build of either kernel and the scalar path store [+0.0] as
    well, the value [(feature > 0) ? gradient : 0] the comment of the
    paired kernel gives. *)
Theorem ReluGradHalf_native_depends_on_alignment :
  let config := fun work threads =>
                  {| block_count := Int.divup work threads;
                     thread_per_block := threads |} in
  let gradient := fun _ : Z => 0xBC00 in
  let feature := fun _ : Z => 0xBC00 in
  let buffer :=
    option_map (fun ws => map (apply_stores ws (fun _ => 0x7E00))
                              (zrange 2)) in
  buffer (ReluGrad config true 1 0x7F0000000002 0x7F0000000102
                   0x7F0000000202 gradient feature 2)
  = Some [0x8000; 0x8000]
  /\ buffer (ReluGrad config true 1 0x7F0000000000 0x7F0000000100
                      0x7F0000000200 gradient feature 2)
     = Some [0; 0]
  /\ buffer (ReluGrad config false 1 0x7F0000000002 0x7F0000000102
                      0x7F0000000202 gradient feature 2)
     = Some [0; 0]
  /\ buffer (ReluGrad config false 1 0x7F0000000000 0x7F0000000100
                      0x7F0000000200 gradient feature 2)
     = Some [0; 0]
  /\ buffer (GpuLaunchKernel
               (ReluGradHalfKernel true 1 gradient feature 2) 1 512)
     <> buffer (GpuLaunchKernel
                  (ReluGradHalfKernelVector true gradient feature 2)
                  (Int.divup (Int.divup 2 VectorSizeElements) kThreadInBlock)
                  kThreadInBlock)
  /\ relu_grad_scalar 0xBC00 0xBC00 = 0
  /\ IEEE.gt (Half.decode 0xBC00) (IEEE.of_Z IEEE.binary16 0) = false.
Proof.
  cbv zeta.
  split; [vm_compute; reflexivity|].
  split; [vm_compute; reflexivity|].
  split; [vm_compute; reflexivity|].
  split; [vm_compute; reflexivity|].
  split; [vm_compute; discriminate|].
  split; vm_compute; reflexivity.
Qed.

End ReluGradHalfTheorems.

(** ** The packed int8 ReLU launcher *)

Section ReluInt8Facts.

Import Gpu ReluInt8.

Lemma grid_stride_launch_cover (fuel : nat) (n g b : Z) :
  0 <= n -> 0 < g -> 0 < b -> n + g * b < 2 ^ 31 ->
  (Z.to_nat n <= fuel)%nat ->
  (forall t, In t (threads g b) ->
     exists visited final,
       grid_stride fuel (global_index t) (total_threads t) n
       = Some (visited, final)
       /\ forall i, In i visited -> 0 <= i < n)
  /\ (forall i, 0 <= i < n ->
        exists t visited final,
          In t (threads g b)
          /\ grid_stride fuel (global_index t) (total_threads t) n
             = Some (visited, final)
          /\ In i visited).
Proof.
  intros Hn Hg Hb Hov Hfuel.
  assert (Hsmall : g * b < 2 ^ 31) by lia.
  assert (HT : 0 < g * b) by nia.
  assert (Hthread : forall t, In t (threads g b) ->
            exists visited final,
              grid_stride fuel (global_index t) (total_threads t) n
              = Some (visited, final)
              /\ forall i, In i visited <->
                   global_index t <= i < n
                   /\ exists k, 0 <= k /\ i = global_index t + k * (g * b)).
  { intros t Ht.
    destruct (global_index_in_grid g b t Ht Hsmall) as (_ & Hidx & Htot).
    destruct (grid_stride_spec (g * b) n fuel HT ltac:(lia)
                (global_index t) ltac:(lia) ltac:(lia))
      as (visited & final & Hrun & Hin & _).
    exists visited, final. rewrite Htot. auto. }
  split.
  - intros t Ht. destruct (Hthread t Ht) as (visited & final & Hrun & Hin).
    exists visited, final. split; [exact Hrun|].
    intros i Hi. apply Hin in Hi.
    destruct (global_index_in_grid g b t Ht Hsmall) as (_ & Hidx & _).
    lia.
  - intros i Hi.
    pose proof (Z.mod_pos_bound i (g * b) HT) as Hmod.
    destruct (thread_of_global_index g b (i mod (g * b)))
      as (t & Ht & Hgi); auto.
    destruct (Hthread t Ht) as (visited & final & Hrun & Hin).
    exists t, visited, final. split; [exact Ht|]. split; [exact Hrun|].
    apply Hin. rewrite Hgi. split.
    + pose proof (Z.mod_le i (g * b)). lia.
    + exists (i / (g * b)). split.
      * apply Z.div_pos; lia.
      * pose proof (Z.div_mod i (g * b)). lia.
Qed.

Lemma in_word_bytes (i j : Z) :
  In j (word_bytes i) <-> 4 * i <= j < 4 * i + 4.
Proof. unfold word_bytes. cbn [In]. lia. Qed.

Lemma in_bytes_read (trace : list access) (j : Z) :
  In j (bytes_read trace) <->
  exists i, In (Load i) trace /\ 4 * i <= j < 4 * i + 4.
Proof.
  unfold bytes_read. rewrite in_flat_map. split.
  - intros ([i | i v] & Ha & Hj); [|destruct Hj].
    exists i. split; [exact Ha|]. now apply in_word_bytes.
  - intros (i & Ha & Hj). exists (Load i). split; [exact Ha|].
    now apply in_word_bytes.
Qed.

Lemma in_bytes_written (trace : list access) (j : Z) :
  In j (bytes_written trace) <->
  exists i v, In (Store i v) trace /\ 4 * i <= j < 4 * i + 4.
Proof.
  unfold bytes_written. rewrite in_flat_map. split.
  - intros ([i | i v] & Ha & Hj); [destruct Hj|].
    exists i, v. split; [exact Ha|]. now apply in_word_bytes.
  - intros (i & v & Ha & Hj). exists (Store i v). split; [exact Ha|].
    now apply in_word_bytes.
Qed.

Lemma int8_kernel_launch_spec (google_cuda : bool) (fuel : nat)
      (vect_count g b : Z) (input : Z -> Z) :
  0 <= vect_count -> 0 < g -> 0 < b -> vect_count + g * b < 2 ^ 31 ->
  (Z.to_nat vect_count <= fuel)%nat ->
  exists trace,
    GpuLaunchKernel (Relu_int8x4_kernel google_cuda fuel vect_count input)
                    g b = Some trace
    /\ (forall i, In (Load i) trace <-> 0 <= i < vect_count)
    /\ (forall i, (exists v, In (Store i v) trace) <-> 0 <= i < vect_count).
Proof.
  intros Hn Hg Hb Hov Hfuel.
  destruct (grid_stride_launch_cover fuel vect_count g b Hn Hg Hb Hov Hfuel)
    as (Hthread & Hcover).
  unfold GpuLaunchKernel.
  rewrite run_threads_defined.
  2:{ intros t Ht. destruct (Hthread t Ht) as (visited & final & E & _).
      unfold Relu_int8x4_kernel. rewrite E. eexists. reflexivity. }
  eexists. split; [reflexivity|].
  set (W := fun t => match Relu_int8x4_kernel google_cuda fuel vect_count
                             input t with
                     | Some ws => ws
                     | None => []
                     end).
  assert (HW : forall t a, In t (threads g b) -> In a (W t) ->
             exists visited final i,
               grid_stride fuel (global_index t) (total_threads t) vect_count
               = Some (visited, final)
               /\ In i visited
               /\ (a = Load i \/ exists v, a = Store i v)).
  { intros t a Ht Ha. destruct (Hthread t Ht) as (visited & final & E & _).
    unfold W, Relu_int8x4_kernel in Ha. rewrite E in Ha.
    apply in_flat_map in Ha. destruct Ha as (i & Hi & Ha).
    exists visited, final, i. split; [exact E|]. split; [exact Hi|].
    destruct Ha as [<- | [<- | []]]; [now left | right; eauto]. }
  assert (HW' : forall t visited final i, In t (threads g b) ->
             grid_stride fuel (global_index t) (total_threads t) vect_count
             = Some (visited, final) ->
             In i visited ->
             In (Load i) (W t) /\ exists v, In (Store i v) (W t)).
  { intros t visited final i Ht E Hi.
    unfold W, Relu_int8x4_kernel. rewrite E. split.
    - apply in_flat_map. exists i. split; [exact Hi | now left].
    - eexists. apply in_flat_map. exists i.
      split; [exact Hi | right; left; reflexivity]. }
  split.
  - intros i. rewrite in_flat_map. split.
    + intros (t & Ht & Ha).
      destruct (HW t _ Ht Ha) as (visited & final & i' & E & Hi' & Hshape).
      destruct Hshape as [Heq | (v & Heq)]; inversion Heq; subst i'.
      destruct (Hthread t Ht) as (visited' & final' & E' & Hrange).
      rewrite E in E'. inversion E'; subst visited' final'.
      now apply Hrange.
    + intros Hi. destruct (Hcover i Hi) as (t & visited & final & Ht & E & Hin).
      exists t. split; [exact Ht|]. now apply (HW' t visited final i Ht E Hin).
  - intros i. split.
    + intros (v & Hv). apply in_flat_map in Hv. destruct Hv as (t & Ht & Ha).
      destruct (HW t _ Ht Ha) as (visited & final & i' & E & Hi' & Hshape).
      destruct Hshape as [Heq | (v' & Heq)]; inversion Heq; subst i'.
      destruct (Hthread t Ht) as (visited' & final' & E' & Hrange).
      rewrite E in E'. inversion E'; subst visited' final'.
      now apply Hrange.
    + intros Hi. destruct (Hcover i Hi) as (t & visited & final & Ht & E & Hin).
      destruct (HW' t visited final i Ht E Hin) as (_ & v & Hv).
      exists v. apply in_flat_map. exists t. split; [exact Ht | exact Hv].
Qed.

(** C9.  The launcher runs the kernel on [ceil(count / 4)] words: the bytes
    read from [input] and the bytes written to [output] are exactly the
    offsets below [4 * ceil(count / 4)].  When [count] is a multiple of 4
    these are the [count] bytes of the tensors; otherwise the bytes from
    offset [count] up to [4 * ceil(count / 4) - 1], past the end of both
    tensors, are read and written as well.  The launch configuration is the
    one [GetGpuLaunchConfigFixedBlockSize] returns; [count + 3] fits
    [int32], so that [Eigen::divup] does not wrap around. *)
Theorem Relu_int8_bytes_accessed
        (GetGpuLaunchConfigFixedBlockSize : Z -> Z -> GpuLaunchConfig)
        (google_cuda : bool) (fuel : nat) (input : Z -> Z) (count : Z) :
  let vect_count := Int.divup count 4 in
  let config := GetGpuLaunchConfigFixedBlockSize vect_count kThreadInBlock in
  0 <= count <= 2 ^ 31 - 4 ->
  0 < block_count config -> 0 < thread_per_block config ->
  vect_count + block_count config * thread_per_block config < 2 ^ 31 ->
  (Z.to_nat vect_count <= fuel)%nat ->
  exists trace,
    Relu GetGpuLaunchConfigFixedBlockSize google_cuda fuel input count
    = Some trace
    /\ count <= 4 * vect_count < count + 4
    /\ (forall j, In j (bytes_read trace) <-> 0 <= j < 4 * vect_count)
    /\ (forall j, In j (bytes_written trace) <-> 0 <= j < 4 * vect_count)
    /\ (count mod 4 = 0 ->
        (forall j, In j (bytes_read trace) <-> 0 <= j < count)
        /\ (forall j, In j (bytes_written trace) <-> 0 <= j < count))
    /\ (count mod 4 <> 0 ->
        count < 4 * vect_count
        /\ forall j, count <= j <= 4 * vect_count - 1 ->
                     In j (bytes_read trace) /\ In j (bytes_written trace)).
Proof.
  intros vect_count config Hc0 Hbc Htpb Hov Hfuel.
  destruct (Z.eq_dec count 0) as [Hz | Hnz].
  { exists []. subst count. unfold Relu. cbn.
    split; [reflexivity|].
    split; [vm_compute; intuition discriminate|].
    split; [intros j; split; [intros [] | lia]|].
    split; [intros j; split; [intros [] | lia]|].
    split; [intros _; split; intros j; (split; [intros [] | lia])|].
    intros Hbad. now contradiction Hbad. }
  assert (Hc : 0 < count < 2 ^ 31) by lia.
  assert (Hvc : vect_count = (count + 3) / 4).
  { unfold vect_count. rewrite divup_small by lia. f_equal. lia. }
  assert (Hvn : 0 <= vect_count) by (rewrite Hvc; apply Z.div_pos; lia).
  destruct (int8_kernel_launch_spec google_cuda fuel vect_count
              (block_count config) (thread_per_block config)
              (int32_view input) Hvn Hbc Htpb Hov Hfuel)
    as (trace & E & Hload & Hstore).
  exists trace.
  assert (Hread : forall j, In j (bytes_read trace) <->
                            0 <= j < 4 * vect_count).
  { intros j. rewrite in_bytes_read. split.
    - intros (i & Hi & Hj). apply Hload in Hi. lia.
    - intros Hj. exists (j / 4). split; [apply Hload|]; div_lia. }
  assert (Hwrite : forall j, In j (bytes_written trace) <->
                             0 <= j < 4 * vect_count).
  { intros j. rewrite in_bytes_written. split.
    - intros (i & v & Hi & Hj).
      assert (0 <= i < vect_count) by (apply Hstore; eauto). lia.
    - intros Hj.
      destruct (proj2 (Hstore (j / 4)) ltac:(div_lia)) as (v & Hv).
      exists (j / 4), v. split; [exact Hv | div_lia]. }
  split.
  { unfold Relu. rewrite i32_small by lia.
    destruct (Z.eqb_spec count 0) as [Hz | _]; [lia|]. exact E. }
  split; [rewrite Hvc; div_lia|].
  split; [exact Hread|]. split; [exact Hwrite|]. split.
  - intros Hmod.
    assert (H4 : 4 * vect_count = count) by (rewrite Hvc; div_lia).
    split; intros j; [rewrite Hread | rewrite Hwrite]; now rewrite H4.
  - intros Hmod.
    assert (H4 : count < 4 * vect_count) by (rewrite Hvc; div_lia).
    split; [exact H4|].
    intros j Hj. split; [apply Hread | apply Hwrite]; lia.
Qed.

Lemma Relu_int8_bytes_accessed_witness :
  let cfg := fun work threads =>
               {| block_count := Int.divup work threads;
                  thread_per_block := threads |} in
  exists trace,
    Relu cfg false 2 (fun _ => 0) 6 = Some trace
    /\ 6 <= 4 * Int.divup 6 4 < 6 + 4
    /\ (forall j, In j (bytes_read trace) <-> 0 <= j < 4 * Int.divup 6 4)
    /\ (forall j, In j (bytes_written trace) <-> 0 <= j < 4 * Int.divup 6 4)
    /\ (6 mod 4 = 0 ->
        (forall j, In j (bytes_read trace) <-> 0 <= j < 6)
        /\ (forall j, In j (bytes_written trace) <-> 0 <= j < 6))
    /\ (6 mod 4 <> 0 ->
        6 < 4 * Int.divup 6 4
        /\ forall j, 6 <= j <= 4 * Int.divup 6 4 - 1 ->
                     In j (bytes_read trace) /\ In j (bytes_written trace)).
Proof.
  intros cfg.
  apply (Relu_int8_bytes_accessed cfg false 2%nat (fun _ => 0) 6).
  - lia.
  - reflexivity.
  - reflexivity.
  - reflexivity.
  - vm_compute. apply le_n.
Defined.

End ReluInt8Facts.

(** ** Quant8: the random word of the stochastic path *)

Section Quant8Rng.

Import Quant8.

Lemma u32_idempotent (z : Z) : Int.u32 (Int.u32 z) = Int.u32 z.
Proof. unfold Int.u32. apply Z.mod_mod. lia. Qed.

Lemma u32_i32 (z : Z) : Int.u32 (Int.i32 z) = Int.u32 z.
Proof.
  unfold Int.u32, Int.i32.
  change (2 ^ 32) with 4294967296. change (2 ^ 31) with 2147483648.
  div_lia.
Qed.

Lemma u32_lxor (a b : Z) :
  Int.u32 (Z.lxor a b) = Z.lxor (Int.u32 a) (Int.u32 b).
Proof.
  apply Z.bits_inj'. intros n Hn.
  rewrite Z.lxor_spec, !testbit_u32, Z.lxor_spec.
  now destruct (n <? 32).
Qed.

Lemma low16 (x : Z) : Z.land (Int.u32 x) 0xFFFF = x mod 2 ^ 16.
Proof.
  change 0xFFFF with (Z.ones 16). rewrite Z.land_ones by lia.
  unfold Int.u32.
  change (2 ^ 32) with 4294967296. change (2 ^ 16) with 65536.
  div_lia.
Qed.

Lemma rotate_step (d : Z) :
  Z.lor (Int.u32 (Z.shiftl (Z.land d 31) 11)) (Z.shiftr d 5)
  = Z.lor ((d mod 32) * 2 ^ 11) (d / 2 ^ 5).
Proof.
  change 31 with (Z.ones 5). rewrite Z.land_ones by lia.
  rewrite Z.shiftl_mul_pow2, Z.shiftr_div_pow2 by lia.
  change (2 ^ 5) with 32.
  pose proof (Z.mod_pos_bound d 32 ltac:(lia)).
  rewrite u32_small; [reflexivity|].
  change (2 ^ 11) with 2048. change (2 ^ 32) with 4294967296. lia.
Qed.

Lemma rotate_matches_spec (T : scalar_type) (x : Z) :
  (let drop_bits := Z.land (Int.u32 x) 0xFFFF in
   let drop_bits :=
     if sizeof T =? 4 then Z.lxor drop_bits (Z.shiftr x 16) else drop_bits in
   Z.lor (Int.u32 (Z.shiftl (Z.land drop_bits 31) 11))
         (Z.shiftr drop_bits 5))
  = spec_rotate T x.
Proof.
  cbv zeta. unfold spec_rotate.
  rewrite rotate_step, low16, Z.shiftr_div_pow2 by lia.
  reflexivity.
Qed.

Lemma mix_matches_spec (drop i seed : Z) :
  0 <= seed < 2 ^ 32 ->
  (let drop_bits := Int.u32 (drop * 0x7000149) in
   Z.lxor (Z.lxor (Z.lxor drop_bits 0x13371337)
                  (Int.u32 (Int.i32 (i * 229791))))
          seed)
  = spec_mix drop i seed.
Proof.
  intros Hseed. cbv zeta. unfold spec_mix.
  change ((drop * 0x7000149) mod 2 ^ 32) with (Int.u32 (drop * 0x7000149)).
  match goal with
  | |- _ = ?r mod 2 ^ 32 => change (r mod 2 ^ 32) with (Int.u32 r)
  end.
  rewrite !u32_lxor, u32_idempotent, u32_i32, (u32_small seed) by lia.
  reflexivity.
Qed.

(** C2, as the code has it.  The generic kernel and the (5,2)
    specialisation derive the random word exactly as specified.  The (4,3)
    specialisation has one more step: it adds the flat index [i] to [drop]
    (32-bit wrap-around) between the rotation and the multiplication. *)
Theorem Quant8_rng_derivation (T : scalar_type) (x i seed : Z) :
  0 <= seed < 2 ^ 32 ->
  rng_generic T x i seed = spec_rng T x i seed
  /\ rng_52 T x i seed = spec_rng T x i seed
  /\ rng_43 T x i seed
     = spec_mix ((spec_rotate T x + i) mod 2 ^ 32) i seed.
Proof.
  intros Hseed. split; [|split].
  - unfold rng_generic, spec_rng. cbv zeta.
    rewrite <- (mix_matches_spec _ i seed Hseed).
    rewrite <- rotate_matches_spec. reflexivity.
  - unfold rng_52, spec_rng. cbv zeta.
    rewrite <- (mix_matches_spec _ i seed Hseed).
    rewrite <- rotate_matches_spec. reflexivity.
  - unfold rng_43. cbv zeta.
    rewrite <- (mix_matches_spec _ i seed Hseed).
    rewrite <- rotate_matches_spec. reflexivity.
Qed.

Lemma Quant8_rng_derivation_witness :
  rng_generic Float 0x3F800000 100000 0x1234
  = spec_rng Float 0x3F800000 100000 0x1234
  /\ rng_52 Float 0x3F800000 100000 0x1234
     = spec_rng Float 0x3F800000 100000 0x1234
  /\ rng_43 Float 0x3F800000 100000 0x1234
     = spec_mix ((spec_rotate Float 0x3F800000 + 100000) mod 2 ^ 32)
                100000 0x1234.
Proof.
  apply (Quant8_rng_derivation Float 0x3F800000 100000 0x1234).
  lia.
Defined.

(** C2 as stated fails on the (4,3) specialisation: at the bit pattern
    [x = 1], index [i = 1] and seed [0] its random word is not the specified
    one. *)
Lemma Quant8_rng_43_differs :
  rng_43 Float 1 1 0 = 339663841
  /\ spec_rng Float 1 1 0 = 322886312
  /\ rng_43 Float 1 1 0 <> spec_rng Float 1 1 0.
Proof.
  split; [vm_compute; reflexivity|].
  split; [vm_compute; reflexivity|].
  vm_compute. discriminate.
Qed.

End Quant8Rng.

(** ** Quant8: the kernels and the launcher *)

Section Quant8Facts.

Import Gpu Quant8.

Context {impl : hip_f8_impl}.

(** No thread of the generic kernel stores anything. *)
Lemma Quant8FwdKernel_no_store (T : scalar_type) (we wm : Z) (input : Z -> Z)
      (count exp_low_cutoff : Z) (stoch : bool) (seed : Z) (t : thread) :
  Quant8FwdKernel T we wm input count exp_low_cutoff stoch seed t = Some [].
Proof. unfold Quant8FwdKernel. now destruct (_ >=? _). Qed.

Lemma Quant8Fwd_launch_shape (T : scalar_type) (warn_count size W1 W2 : Z)
      (stoch dynamic : bool) (l : launch) :
  launched (Quant8Fwd T warn_count size W1 W2 stoch dynamic) = Some l ->
  exists exp_low_cutoff,
    args l = [ArgInput; ArgOutput; ArgInt (Int.i32 size);
              ArgInt exp_low_cutoff; ArgBool stoch].
Proof.
  unfold Quant8Fwd.
  destruct (Int.i32 size =? 0); [discriminate|].
  match goal with
  | |- context [let '(op, errors) := ?sel in _] => destruct sel as [op errors]
  end.
  cbn [launched]. intros Heq. inversion Heq; subst l. cbn [args].
  eexists. reflexivity.
Qed.

Lemma run_launch_no_store (T : scalar_type) (warn_count size W1 W2 : Z)
      (stoch dynamic : bool) (input : Z -> Z) (unspecified : Z) (l : launch) :
  launched (Quant8Fwd T warn_count size W1 W2 stoch dynamic) = Some l ->
  run_launch T input l unspecified = Some [].
Proof.
  intros Hl.
  destruct (Quant8Fwd_launch_shape _ _ _ _ _ _ _ _ Hl) as (cutoff & Hargs).
  unfold run_launch. rewrite Hargs. unfold GpuLaunchKernel.
  rewrite (run_threads_flat_map _ (fun _ => [])).
  - now rewrite flat_map_nil.
  - intros t _. apply Quant8FwdKernel_no_store.
Qed.

Lemma output_after_unchanged (T : scalar_type) (warn_count : Z)
      (input output : Z -> Z) (size W1 W2 : Z) (stoch dynamic : bool)
      (unspecified : Z) :
  output_after T warn_count input output size W1 W2 stoch dynamic unspecified
  = Some output.
Proof.
  unfold output_after.
  destruct (launched _) as [l|] eqn:Hl; [|reflexivity].
  now rewrite (run_launch_no_store _ _ _ _ _ _ _ input unspecified l Hl).
Qed.

(** C1: what the code does.  Whatever the pair (W1, W2), the input and
    the rounding mode, a call of [Quant8Fwd] leaves the output buffer as it
    was: the launcher only ever launches the generic kernel, whose threads
    store nothing.  The (5,2) specialisation, which the launcher never
    selects, does store the decoded value at every index below [count]. *)
Theorem Quant8Fwd_leaves_output_unwritten :
  (forall (T : scalar_type) (warn_count : Z) (input output : Z -> Z)
          (size W1 W2 : Z) (stoch dynamic : bool) (unspecified : Z),
      output_after T warn_count input output size W1 W2 stoch dynamic
                   unspecified = Some output)
  /\ (forall (T : scalar_type) (we wm : Z) (input : Z -> Z)
             (count exp_low_cutoff : Z) (stoch : bool) (seed : Z)
             (t : thread),
         Quant8FwdKernel T we wm input count exp_low_cutoff stoch seed t
         = Some [])
  /\ output_after Float 0 (fun _ => 0x40490FDB) (fun _ => 0) 1 5 2
                  false false 0
     = Some (fun _ => 0)
  /\ (forall (T : scalar_type) (input : Z -> Z)
             (count exp_low_cutoff : Z) (seed : Z) (t : thread),
         Int.i32 (threadIdx_x t + blockIdx_x t * blockDim_x t) < count ->
         Quant8FwdKernel_52 T input count exp_low_cutoff false seed t
         = Some [(Int.i32 (threadIdx_x t + blockIdx_x t * blockDim_x t),
                  cast_from_f8 2 5 T false
                    (cast_to_f8 2 5 T false true false
                       (input (Int.i32 (threadIdx_x t
                                        + blockIdx_x t * blockDim_x t)))
                       0 mod 2 ^ 8))]).
Proof.
  split; [intros; apply output_after_unchanged|].
  split; [intros; apply Quant8FwdKernel_no_store|].
  split; [apply output_after_unchanged|].
  intros T input count cutoff seed t Hlt.
  unfold Quant8FwdKernel_52.
  destruct (Z.geb_spec (Int.i32 (threadIdx_x t + blockIdx_x t * blockDim_x t))
              count) as [Hge | _]; [lia | reflexivity].
Qed.

(** C3: what the code does.  The launcher has no seed parameter and hands
    five arguments to a kernel of six parameters: no launch carries a seed
    argument, so the seed the stochastic path uses is not supplied by the
    caller.  The output of a call is the previous content of the output
    buffer, so two calls with the same input, widths and flag end with the
    same buffer only if they started with the same one. *)
Theorem Quant8Fwd_passes_no_seed :
  (forall (T : scalar_type) (warn_count size W1 W2 : Z)
          (stoch dynamic : bool) (l : launch),
      launched (Quant8Fwd T warn_count size W1 W2 stoch dynamic) = Some l ->
      seed_argument l = None /\ List.length (args l) = 5%nat)
  /\ (forall (T : scalar_type) (warn_count : Z)
             (input output1 output2 : Z -> Z) (size W1 W2 : Z)
             (stoch dynamic : bool) (seed1 seed2 : Z),
         output_after T warn_count input output1 size W1 W2 stoch dynamic
                      seed1 = Some output1
         /\ output_after T warn_count input output2 size W1 W2 stoch dynamic
                         seed2 = Some output2)
  /\ (exists out1 out2,
         output_after Float 0 (fun _ => 0x3F800000) (fun _ => 0) 1 5 2
                      true false 0x1234 = Some out1
         /\ output_after Float 0 (fun _ => 0x3F800000) (fun _ => 1) 1 5 2
                         true false 0x1234 = Some out2
         /\ out1 0 <> out2 0).
Proof.
  split; [|split].
  - intros T wc size W1 W2 stoch dynamic l Hl.
    destruct (Quant8Fwd_launch_shape _ _ _ _ _ _ _ _ Hl) as (cutoff & Hargs).
    unfold seed_argument. rewrite Hargs. split; reflexivity.
  - intros. split; apply output_after_unchanged.
  - exists (fun _ => 0), (fun _ => 1).
    split; [apply output_after_unchanged|].
    split; [apply output_after_unchanged|].
    discriminate.
Qed.

Lemma supported_false_cases (W1 W2 : Z) :
  supported W1 W2 = false ->
  (W1 <> 4 /\ W1 <> 5 /\ W1 <> 8) \/ (W2 <> 1 /\ W2 <> 2 /\ W2 <> 3).
Proof.
  unfold supported. intros H.
  apply andb_false_iff in H. destruct H as [H | H]; [left | right];
    apply orb_false_iff in H; destruct H as [H H3];
    apply orb_false_iff in H; destruct H as [H1 H2];
    apply Z.eqb_neq in H1, H2, H3; auto.
Qed.

(** C8, as the code has it.  For a pair outside the supported set (and a
    non-empty tensor) the launcher prints one error line on standard
    output, the line for a bad pair when [W1] is 4, 5 or 8 (then [W2] is
    not 1, 2 or 3) and the line for a bad [W1] otherwise, after the
    warning of the [float] instance if that is due.  It reports nothing to
    its caller and launches the generic kernel at its default
    instantiation [we = 5], [wm = 3], on the grid
    [(count + 255) / 256] computed in [int32], which covers [count] while
    [count + 255] does not overflow.  With an empty tensor it returns
    before looking at the pair. *)
Theorem Quant8Fwd_unsupported_pair
        (T : scalar_type) (warn_count size W1 W2 : Z)
        (stoch dynamic : bool) :
  supported W1 W2 = false ->
  (Int.i32 size <> 0 ->
   exists l warning,
     launched (Quant8Fwd T warn_count size W1 W2 stoch dynamic) = Some l
     /\ op_we l = 5 /\ op_wm l = 3
     /\ grid l = Z.quot (Int.i32 (Int.i32 size + 256 - 1)) 256
     /\ block l = 256
     /\ (0 < Int.i32 size <= 2 ^ 31 - 256 ->
         Int.i32 size <= grid l * block l < Int.i32 size + 256)
     /\ printed (Quant8Fwd T warn_count size W1 W2 stoch dynamic)
        = warning
            ++ [if (W1 =? 4) || (W1 =? 5) || (W1 =? 8)
                then error_W1_W2 else error_W1]
     /\ warning
        = (if (sizeof T =? 4) && (Int.i32 (warn_count + 1) <? 10)
           then [warning_float] else []))
  /\ (Int.i32 size = 0 ->
      Quant8Fwd T warn_count size W1 W2 stoch dynamic
      = {| printed := []; warn_count_after := warn_count;
           launched := None |}).
Proof.
  intros Hsup. split.
  - intros Hsize.
    assert (Hrange : - 2 ^ 31 <= Int.i32 size < 2 ^ 31)
      by (unfold Int.i32; div_lia).
    apply Z.eqb_neq in Hsize.
    apply supported_false_cases in Hsup.
    unfold Quant8Fwd. rewrite Hsize.
    match goal with
    | |- context [let '(op, errors) := ?sel in _] =>
        assert (Hsel : sel = ((5, 3),
                              [if (W1 =? 4) || (W1 =? 5) || (W1 =? 8)
                               then error_W1_W2 else error_W1]))
    end.
    { destruct (Z.eqb_spec W1 4) as [E4 | N4].
      { destruct Hsup as [(? & _) | (N1 & N2 & N3)]; [contradiction|].
        apply Z.eqb_neq in N1, N2, N3. now rewrite N1, N2, N3. }
      destruct (Z.eqb_spec W1 5) as [E5 | N5].
      { destruct Hsup as [(_ & ? & _) | (N1 & N2 & N3)]; [contradiction|].
        apply Z.eqb_neq in N1, N2, N3. now rewrite N1, N2, N3. }
      destruct (Z.eqb_spec W1 8) as [E8 | N8].
      { destruct Hsup as [(_ & _ & ?) | (N1 & N2 & N3)]; [contradiction|].
        apply Z.eqb_neq in N1, N2, N3. rewrite N1, N2, N3.
        now destruct (sizeof T =? 2). }
      reflexivity. }
    rewrite Hsel.
    cbn [launched printed op_we op_wm grid block args fst snd].
    eexists. eexists.
    split; [reflexivity|].
    split; [reflexivity|]. split; [reflexivity|].
    split; [reflexivity|].
    split; [reflexivity|].
    split.
    { intros Hbound. cbn [grid block].
      rewrite (i32_small (Int.i32 size + 256 - 1)) by lia.
      rewrite Z.quot_div_nonneg by lia. div_lia. }
    split; [reflexivity|].
    destruct T; cbn [sizeof]; reflexivity.
  - intros Hsize. unfold Quant8Fwd. now rewrite Hsize.
Qed.

Lemma Quant8Fwd_unsupported_pair_witness :
  (Int.i32 1 <> 0 ->
   exists l warning,
     launched (Quant8Fwd Half 0 1 4 7 false false) = Some l
     /\ op_we l = 5 /\ op_wm l = 3
     /\ grid l = Z.quot (Int.i32 (Int.i32 1 + 256 - 1)) 256
     /\ block l = 256
     /\ (0 < Int.i32 1 <= 2 ^ 31 - 256 ->
         Int.i32 1 <= grid l * block l < Int.i32 1 + 256)
     /\ printed (Quant8Fwd Half 0 1 4 7 false false)
        = warning
            ++ [if (4 =? 4) || (4 =? 5) || (4 =? 8)
                then error_W1_W2 else error_W1]
     /\ warning
        = (if (sizeof Half =? 4) && (Int.i32 (0 + 1) <? 10)
           then [warning_float] else []))
  /\ (Int.i32 1 = 0 ->
      Quant8Fwd Half 0 1 4 7 false false
      = {| printed := []; warn_count_after := 0; launched := None |}).
Proof.
  apply (Quant8Fwd_unsupported_pair Half 0 1 4 7 false false).
  reflexivity.
Defined.

(** C8 as stated fails: called with the pair (4, 7) the launcher returns
    nothing to the caller and launches the generic kernel instantiated at
    (5, 3). *)
Lemma Quant8Fwd_launches_on_bad_pair :
  supported 4 7 = false
  /\ launched (Quant8Fwd Half 0 1 4 7 false false)
     = Some {| op_we := 5; op_wm := 3; grid := 1; block := 256;
               args := [ArgInput; ArgOutput; ArgInt 1; ArgInt 9;
                        ArgBool false] |}
  /\ printed (Quant8Fwd Half 0 1 4 7 false false) = [error_W1_W2].
Proof. repeat split. Qed.

End Quant8Facts.

(* ================================================================== *)
(** * Further properties of the functors and kernels *)

(** ** ReLU, ReLU6 and the gradients of [relu_op_functor.h] *)

Lemma binary_round_aux_shape (p e : Z) (s : bool) (m ex : Z) (l : location) :
  binary_round_aux p e s m ex l = S754_zero s
  \/ binary_round_aux p e s m ex l = S754_infinity s
  \/ binary_round_aux p e s m ex l = S754_nan
  \/ exists m' e', binary_round_aux p e s m ex l = S754_finite s m' e'.
Proof.
  unfold binary_round_aux.
  destruct (shr_fexp p e m ex l) as [mrs' e'].
  destruct (shr_fexp p e _ e' loc_Exact) as [mrs'' e''].
  destruct (shr_m mrs'') as [|q|q].
  - now left.
  - destruct (e'' <=? e - p).
    + right. right. right. eauto.
    + right. now left.
  - right. right. now left.
Qed.

Lemma SFltb_zero_negative_product (p e : Z) (m ex : Z) (l : location) :
  SFltb (S754_zero false) (binary_round_aux p e true m ex l) = false.
Proof.
  destruct (binary_round_aux_shape p e true m ex l)
    as [-> | [-> | [-> | (m' & e' & ->)]]]; reflexivity.
Qed.

(** X1.  ReLU forward is idempotent, returns either its argument or [+0],
    never returns a value below zero, and returns NaN exactly when its
    argument is NaN. *)
Theorem Relu_idempotent_and_range (fmt : IEEE.format) (x : spec_float) :
  Functor.Relu_elem fmt (Functor.Relu_elem fmt x) = Functor.Relu_elem fmt x
  /\ (Functor.Relu_elem fmt x = x
      \/ Functor.Relu_elem fmt x = S754_zero false)
  /\ IEEE.lt (Functor.Relu_elem fmt x) (IEEE.of_Z fmt 0) = false
  /\ IEEE.is_nan (Functor.Relu_elem fmt x) = IEEE.is_nan x.
Proof.
  unfold Functor.Relu_elem, Functor.cwiseMax_PropagateNaN, IEEE.lt.
  rewrite of_Z_0. change (IEEE.is_nan (S754_zero false)) with false.
  destruct (IEEE.is_nan x) eqn:Hnan.
  - rewrite Hnan. apply is_nan_true in Hnan. subst x. auto.
  - destruct (SFltb x (S754_zero false)) eqn:Hneg.
    + cbn. auto.
    + rewrite Hnan, Hneg. auto.
Qed.

(** X2.  The gradient of ReLU may be given the forward input or the forward
    output as features: both give the same backprop, for every gradient. *)
Theorem ReluGrad_input_or_output (fmt : IEEE.format) (g x : spec_float) :
  Functor.ReluGrad_elem fmt g (Functor.Relu_elem fmt x)
  = Functor.ReluGrad_elem fmt g x.
Proof.
  unfold Functor.ReluGrad_elem. f_equal. f_equal.
  unfold Functor.Relu_elem, Functor.cwiseMax_PropagateNaN, IEEE.lt, IEEE.gt.
  rewrite of_Z_0. change (IEEE.is_nan (S754_zero false)) with false.
  destruct (IEEE.is_nan x); [reflexivity|].
  destruct (SFltb x (S754_zero false)) eqn:Hneg; [|reflexivity].
  now rewrite (SFltb_asym _ _ Hneg).
Qed.

(** X3.  ReLU backward returns the gradient itself where the feature is
    positive (for a gradient of the format) and [g * 0] elsewhere, in
    particular at a zero feature: a zero with the sign of a finite [g], NaN
    for an infinite or NaN [g]. *)
Theorem ReluGrad_passes_or_blocks :
  (forall g x : spec_float,
      IEEE.valid IEEE.binary32 g = true ->
      IEEE.gt x (IEEE.of_Z IEEE.binary32 0) = true ->
      Functor.ReluGrad_elem IEEE.binary32 g x = g)
  /\ (forall g x : spec_float,
         IEEE.valid IEEE.binary16 g = true ->
         IEEE.gt x (IEEE.of_Z IEEE.binary16 0) = true ->
         Functor.ReluGrad_elem IEEE.binary16 g x = g)
  /\ (forall (fmt : IEEE.format) (g x : spec_float),
         IEEE.gt x (IEEE.of_Z fmt 0) = false ->
         Functor.ReluGrad_elem fmt g x
         = match g with
           | S754_zero s | S754_finite s _ _ => S754_zero s
           | _ => S754_nan
           end).
Proof.
  split; [|split].
  - intros g x Hg Hx. unfold Functor.ReluGrad_elem. rewrite Hx.
    now apply mul_one_binary32.
  - intros g x Hg Hx. unfold Functor.ReluGrad_elem. rewrite Hx.
    now apply mul_one_binary16.
  - intros fmt g x Hx. unfold Functor.ReluGrad_elem. rewrite Hx.
    apply mul_zero_r.
Qed.

Lemma ReluGrad_passes_or_blocks_witness :
  Functor.ReluGrad_elem IEEE.binary32
    (IEEE.of_Z IEEE.binary32 (-3)) (IEEE.of_Z IEEE.binary32 2)
  = IEEE.of_Z IEEE.binary32 (-3)
  /\ Functor.ReluGrad_elem IEEE.binary16
       (IEEE.of_Z IEEE.binary16 5) (IEEE.of_Z IEEE.binary16 1)
     = IEEE.of_Z IEEE.binary16 5
  /\ Functor.ReluGrad_elem IEEE.binary32
       (IEEE.of_Z IEEE.binary32 (-3)) (IEEE.of_Z IEEE.binary32 0)
     = S754_zero true.
Proof.
  split; [|split].
  - apply (proj1 ReluGrad_passes_or_blocks); reflexivity.
  - apply (proj1 (proj2 ReluGrad_passes_or_blocks)); reflexivity.
  - apply (proj2 (proj2 ReluGrad_passes_or_blocks) IEEE.binary32
             (IEEE.of_Z IEEE.binary32 (-3)) (IEEE.of_Z IEEE.binary32 0)).
    reflexivity.
Defined.

Lemma Relu6_cases (fmt : IEEE.format) (x : spec_float) :
  IEEE.is_nan (IEEE.of_Z fmt 6) = false ->
  SFltb (IEEE.of_Z fmt 6) (S754_zero false) = false ->
  (Functor.Relu6_elem fmt x = x
   /\ SFltb x (S754_zero false) = false
   /\ SFltb (IEEE.of_Z fmt 6) x = false)
  \/ (Functor.Relu6_elem fmt x = S754_zero false /\ IEEE.is_nan x = false)
  \/ (Functor.Relu6_elem fmt x = IEEE.of_Z fmt 6 /\ IEEE.is_nan x = false).
Proof.
  intros Hnan6 Hpos6.
  unfold Functor.Relu6_elem, Functor.cwiseMin_PropagateNaN,
    Functor.cwiseMax_PropagateNaN, IEEE.lt.
  rewrite of_Z_0. change (IEEE.is_nan (S754_zero false)) with false.
  destruct (IEEE.is_nan x) eqn:Hnan.
  - apply is_nan_true in Hnan. subst x. left. repeat split.
    apply SFltb_nan_r.
  - destruct (SFltb x (S754_zero false)) eqn:Hneg.
    + cbn [IEEE.is_nan]. rewrite Hnan6, Hpos6. right. left. auto.
    + rewrite Hnan, Hnan6.
      destruct (SFltb (IEEE.of_Z fmt 6) x) eqn:Hbig.
      * right. right. auto.
      * left. auto.
Qed.

Lemma Relu6_facts (fmt : IEEE.format) (x : spec_float) :
  IEEE.is_nan (IEEE.of_Z fmt 6) = false ->
  SFltb (IEEE.of_Z fmt 6) (S754_zero false) = false ->
  Functor.Relu6_elem fmt (Functor.Relu6_elem fmt x) = Functor.Relu6_elem fmt x
  /\ IEEE.lt (Functor.Relu6_elem fmt x) (IEEE.of_Z fmt 0) = false
  /\ IEEE.lt (IEEE.of_Z fmt 6) (Functor.Relu6_elem fmt x) = false
  /\ IEEE.is_nan (Functor.Relu6_elem fmt x) = IEEE.is_nan x.
Proof.
  intros Hnan6 Hpos6. rewrite of_Z_0. unfold IEEE.lt.
  assert (Hfix : forall y,
             SFltb y (S754_zero false) = false ->
             SFltb (IEEE.of_Z fmt 6) y = false ->
             Functor.Relu6_elem fmt y = y).
  { intros y Hy0 Hy6.
    unfold Functor.Relu6_elem, Functor.cwiseMin_PropagateNaN,
      Functor.cwiseMax_PropagateNaN, IEEE.lt.
    rewrite of_Z_0. change (IEEE.is_nan (S754_zero false)) with false.
    destruct (IEEE.is_nan y) eqn:Hnan.
    - now rewrite Hnan.
    - now rewrite Hy0, Hnan, Hnan6, Hy6. }
  destruct (Relu6_cases fmt x Hnan6 Hpos6)
    as [(E & H0 & H6) | [(E & Hn) | (E & Hn)]]; rewrite E.
  - split; [exact E|]. split; [exact H0|]. split; [exact H6 | reflexivity].
  - split; [apply Hfix; [reflexivity | exact Hpos6]|].
    split; [reflexivity|]. split; [exact Hpos6|]. now rewrite Hn.
  - split; [apply Hfix; [exact Hpos6 | apply SFltb_irrefl]|].
    split; [exact Hpos6|]. split; [apply SFltb_irrefl|]. now rewrite Hn.
Qed.

(** X4.  ReLU6 forward (binary32 and binary16) is idempotent, never returns
    a value below 0 or above 6, and returns NaN exactly when its argument is
    NaN. *)
Theorem Relu6_idempotent_and_range :
  (forall x : spec_float,
      Functor.Relu6_elem IEEE.binary32 (Functor.Relu6_elem IEEE.binary32 x)
      = Functor.Relu6_elem IEEE.binary32 x
      /\ IEEE.lt (Functor.Relu6_elem IEEE.binary32 x)
                 (IEEE.of_Z IEEE.binary32 0) = false
      /\ IEEE.lt (IEEE.of_Z IEEE.binary32 6)
                 (Functor.Relu6_elem IEEE.binary32 x) = false
      /\ IEEE.is_nan (Functor.Relu6_elem IEEE.binary32 x) = IEEE.is_nan x)
  /\ (forall x : spec_float,
         Functor.Relu6_elem IEEE.binary16 (Functor.Relu6_elem IEEE.binary16 x)
         = Functor.Relu6_elem IEEE.binary16 x
         /\ IEEE.lt (Functor.Relu6_elem IEEE.binary16 x)
                    (IEEE.of_Z IEEE.binary16 0) = false
         /\ IEEE.lt (IEEE.of_Z IEEE.binary16 6)
                    (Functor.Relu6_elem IEEE.binary16 x) = false
         /\ IEEE.is_nan (Functor.Relu6_elem IEEE.binary16 x) = IEEE.is_nan x).
Proof.
  split; intros x; apply Relu6_facts; reflexivity.
Qed.

Lemma LeakyRelu_output_sign (fmt : IEEE.format) (alpha x : spec_float) :
  IEEE.lt alpha (IEEE.of_Z fmt 0) = false ->
  IEEE.gt (Functor.LeakyRelu_elem fmt alpha x) (IEEE.of_Z fmt 0)
  = IEEE.gt x (IEEE.of_Z fmt 0).
Proof.
  unfold Functor.LeakyRelu_elem, IEEE.gt, IEEE.lt, IEEE.mul.
  rewrite of_Z_0. intros Halpha.
  destruct (SFltb (S754_zero false) x) eqn:Hx; [exact Hx|].
  destruct x as [sx | sx | | sx mx ex],
           alpha as [sa | sa | | sa ma ea];
    try reflexivity; try (destruct sx; discriminate Hx || fail);
    try (destruct sa; discriminate Halpha || fail).
  all: try (destruct sx; try discriminate Hx; destruct sa;
            try discriminate Halpha; reflexivity).
  destruct sx; [|discriminate Hx]. destruct sa; [discriminate Halpha|].
  cbn [SFmul xorb]. apply SFltb_zero_negative_product.
Qed.

(** X5.  When [alpha] is not negative, the gradient of LeakyReLU may be
    given the forward input or the forward output as features: the output
    is positive exactly when the input is. *)
Theorem LeakyReluGrad_input_or_output
        (fmt : IEEE.format) (alpha g x : spec_float) :
  IEEE.lt alpha (IEEE.of_Z fmt 0) = false ->
  Functor.LeakyReluGrad_elem fmt alpha g (Functor.LeakyRelu_elem fmt alpha x)
  = Functor.LeakyReluGrad_elem fmt alpha g x.
Proof.
  intros Halpha. unfold Functor.LeakyReluGrad_elem.
  now rewrite LeakyRelu_output_sign.
Qed.

Lemma LeakyReluGrad_input_or_output_witness :
  Functor.LeakyReluGrad_elem IEEE.binary32
    (IEEE.of_scaled IEEE.binary32 1 (-2)) (IEEE.of_Z IEEE.binary32 3)
    (Functor.LeakyRelu_elem IEEE.binary32
       (IEEE.of_scaled IEEE.binary32 1 (-2)) (IEEE.of_Z IEEE.binary32 (-8)))
  = Functor.LeakyReluGrad_elem IEEE.binary32
      (IEEE.of_scaled IEEE.binary32 1 (-2)) (IEEE.of_Z IEEE.binary32 3)
      (IEEE.of_Z IEEE.binary32 (-8)).
Proof.
  apply (LeakyReluGrad_input_or_output IEEE.binary32
           (IEEE.of_scaled IEEE.binary32 1 (-2))).
  reflexivity.
Defined.

(** ** Half precision: conversions and the two ReluGrad paths *)

Section HalfPaths.

Import Half Gpu ReluGradHalf.

Lemma forall_from_spec (P : Z -> bool) (n : nat) :
  forall i, Exhaustive.forall_from n i P = true ->
            forall h, i <= h < i + Z.of_nat n -> P h = true.
Proof.
  induction n as [|n IH]; intros i Hall h Hh.
  - lia.
  - cbn [Exhaustive.forall_from] in Hall.
    apply andb_prop in Hall. destruct Hall as [Hi Hrest].
    destruct (Z.eq_dec h i) as [-> | Hne]; [exact Hi|].
    apply (IH (i + 1) Hrest). lia.
Qed.

Lemma all_half_patterns (P : Z -> bool) :
  Exhaustive.forall_from (Z.to_nat 65536) 0 P = true ->
  forall h, 0 <= h < 2 ^ 16 -> P h = true.
Proof.
  intros Hall h Hh. apply (forall_from_spec P _ 0 Hall).
  change (2 ^ 16) with 65536 in Hh. lia.
Qed.

(** Widening a half to float and narrowing it again returns the pattern,
    NaNs apart; the widened value is positive exactly when the half is. *)
Lemma half_float_round_trip (h : half) :
  0 <= h < 2 ^ 16 -> HalfClass.is_nan h = false ->
  float_to_half_rn (half_to_float h) = h.
Proof.
  intros Hh Hnan.
  pose proof (all_half_patterns
                (fun h => HalfClass.is_nan h
                          || (float_to_half_rn (half_to_float h) =? h))
                ltac:(vm_compute; reflexivity) h Hh) as H.
  cbv beta in H. rewrite Hnan in H. now apply Z.eqb_eq in H.
Qed.

Lemma half_float_positive (h : half) :
  0 <= h < 2 ^ 16 ->
  IEEE.gt (half_to_float h) (IEEE.of_Z IEEE.binary32 0)
  = HalfClass.positive h.
Proof.
  intros Hh.
  pose proof (all_half_patterns
                (fun h => Bool.eqb
                            (IEEE.gt (half_to_float h)
                                     (IEEE.of_Z IEEE.binary32 0))
                            (HalfClass.positive h))
                ltac:(vm_compute; reflexivity) h Hh) as H.
  now apply Bool.eqb_prop in H.
Qed.

Lemma hmul_one (g : half) :
  0 <= g < 2 ^ 16 -> HalfClass.is_nan g = false -> hmul 0x3C00 g = g.
Proof.
  intros Hg Hnan.
  pose proof (all_half_patterns
                (fun g => HalfClass.is_nan g || (hmul 0x3C00 g =? g))
                ltac:(vm_compute; reflexivity) g Hg) as H.
  cbv beta in H. rewrite Hnan in H. now apply Z.eqb_eq in H.
Qed.

Lemma hmul_zero (g : half) :
  0 <= g < 2 ^ 16 ->
  hmul 0 g = if HalfClass.is_special g then 0x7E00 else Z.land g 0x8000.
Proof.
  intros Hg.
  pose proof (all_half_patterns
                (fun g => hmul 0 g =? (if HalfClass.is_special g then 0x7E00
                                       else Z.land g 0x8000))
                ltac:(vm_compute; reflexivity) g Hg) as H.
  now apply Z.eqb_eq in H.
Qed.

Lemma relu_grad_scalar_selects (g f : half) :
  0 <= g < 2 ^ 16 -> 0 <= f < 2 ^ 16 -> HalfClass.is_nan g = false ->
  relu_grad_scalar g f = (if HalfClass.positive f then g else 0).
Proof.
  intros Hg Hf Hnan. unfold relu_grad_scalar. cbv zeta.
  rewrite (half_float_positive f Hf).
  destruct (HalfClass.positive f).
  - now apply half_float_round_trip.
  - reflexivity.
Qed.

(** X6.  The widening fallback of the half2 step and the scalar path for
    left-over elements compute [(feature > 0) ? gradient : 0] bit for bit:
    for every 16-bit gradient that is not a NaN the result is the gradient
    pattern itself where the feature is positive and [+0.0] elsewhere
    (also for a NaN feature). *)
Theorem ReluGradHalf_fallback_selects (g f : half) :
  0 <= g < 2 ^ 16 -> 0 <= f < 2 ^ 16 -> HalfClass.is_nan g = false ->
  relu_grad_scalar g f = (if HalfClass.positive f then g else 0)
  /\ relu_grad_lane false g f = (if HalfClass.positive f then g else 0).
Proof.
  intros Hg Hf Hnan.
  change (relu_grad_lane false g f) with (relu_grad_scalar g f).
  split; now apply relu_grad_scalar_selects.
Qed.

Lemma ReluGradHalf_fallback_selects_witness :
  relu_grad_scalar 0xBC00 0x3800
  = (if HalfClass.positive 0x3800 then 0xBC00 else 0)
  /\ relu_grad_lane false 0xBC00 0x3800
     = (if HalfClass.positive 0x3800 then 0xBC00 else 0).
Proof.
  apply (ReluGradHalf_fallback_selects 0xBC00 0x3800); [lia | lia |].
  reflexivity.
Defined.

(** X7.  The native half2 step multiplies by the mask: where the feature
    is positive a gradient that is not a NaN comes back unchanged; elsewhere
    a finite gradient gives a zero that keeps the gradient's sign bit
    ([-0.0] for a negative gradient) and an infinite or NaN gradient gives a
    NaN. *)
Theorem ReluGradHalf_native_masks (g f : half) :
  0 <= g < 2 ^ 16 ->
  (HalfClass.positive f = true -> HalfClass.is_nan g = false ->
   relu_grad_lane true g f = g)
  /\ (HalfClass.positive f = false -> HalfClass.is_special g = false ->
      relu_grad_lane true g f = Z.land g 0x8000)
  /\ (HalfClass.positive f = false -> HalfClass.is_special g = true ->
      HalfClass.is_nan (relu_grad_lane true g f) = true).
Proof.
  intros Hg.
  assert (Hlane : relu_grad_lane true g f
                  = hmul (if HalfClass.positive f then 0x3C00 else 0) g).
  { reflexivity. }
  rewrite Hlane. split; [|split].
  - intros -> Hnan. now apply hmul_one.
  - intros -> Hsp. now rewrite hmul_zero, Hsp.
  - intros -> Hsp. now rewrite hmul_zero, Hsp.
Qed.

Lemma ReluGradHalf_native_masks_witness :
  relu_grad_lane true 0xC500 0x3C00 = 0xC500
  /\ relu_grad_lane true 0xC500 0xBC00 = Z.land 0xC500 0x8000
  /\ HalfClass.is_nan (relu_grad_lane true 0xFC00 0xBC00) = true.
Proof.
  split; [|split].
  - apply (proj1 (ReluGradHalf_native_masks 0xC500 0x3C00 ltac:(lia)));
      reflexivity.
  - apply (proj1 (proj2 (ReluGradHalf_native_masks 0xC500 0xBC00
                           ltac:(lia)))); reflexivity.
  - apply (proj2 (proj2 (ReluGradHalf_native_masks 0xFC00 0xBC00
                           ltac:(lia)))); reflexivity.
Defined.

(** X8.  The native half2 step is the generic [ReluGrad] functor at
    binary16: for all patterns its result is the encoding of
    [gradient * (feature > 0)] computed on the decoded values. *)
Theorem ReluGradHalf_native_is_generic (g f : half) :
  relu_grad_lane true g f
  = encode (Functor.ReluGrad_elem IEEE.binary16 (decode g) (decode f)).
Proof.
  unfold relu_grad_lane, hmul, hgt, Functor.ReluGrad_elem, IEEE.mul.
  change (decode (float_to_half_rn (IEEE.of_Z IEEE.binary32 0)))
    with (IEEE.of_Z IEEE.binary16 0).
  rewrite SFmul_comm.
  destruct (IEEE.gt (decode f) (IEEE.of_Z IEEE.binary16 0)); reflexivity.
Qed.

Lemma land_sign_bit_clear (g : Z) : 0 <= g < 2 ^ 15 -> Z.land g 0x8000 = 0.
Proof.
  intros Hg. apply Z.bits_inj'. intros n Hn.
  rewrite Z.land_spec, Z.bits_0.
  change 0x8000 with (2 ^ 15). rewrite Z.pow2_bits_eqb by lia.
  destruct (Z.eqb_spec 15 n) as [<- | Hne]; [|apply andb_false_r].
  rewrite andb_true_r.
  destruct (Z.eq_dec g 0) as [-> | Hnz]; [apply Z.bits_0|].
  apply Z.bits_above_log2; [lia|]. apply Z.log2_lt_pow2; lia.
Qed.

(** Where the two paths agree: on a build without native primitives, at a
    positive feature, or at a finite gradient with a clear sign bit. *)
Lemma relu_grad_paths_select (native : bool) (g f : half) :
  0 <= g < 2 ^ 16 -> 0 <= f < 2 ^ 16 -> HalfClass.is_nan g = false ->
  native = false \/ HalfClass.positive f = true
  \/ (HalfClass.is_special g = false /\ g < 2 ^ 15) ->
  relu_grad_lane native g f = (if HalfClass.positive f then g else 0)
  /\ relu_grad_scalar g f = (if HalfClass.positive f then g else 0).
Proof.
  intros Hg Hf Hnan Hcond.
  split; [|now apply relu_grad_scalar_selects].
  destruct native.
  - change (relu_grad_lane true g f)
      with (hmul (if HalfClass.positive f then 0x3C00 else 0) g).
    destruct (HalfClass.positive f) eqn:Hpos.
    + now apply hmul_one.
    + destruct Hcond as [Hc | [Hc | (Hsp & Hlow)]]; try discriminate.
      rewrite hmul_zero, Hsp by exact Hg.
      apply land_sign_bit_clear. lia.
  - change (relu_grad_lane false g f) with (relu_grad_scalar g f).
    now apply relu_grad_scalar_selects.
Qed.

(** X9.  The launcher end to end.  Whichever kernel the alignment of the
    three pointers selects, a call stores nothing outside [[0, size)], and
    below [size] the offset [j] of [backprop] holds
    [(feature > 0) ? gradient : 0] bit for bit whenever the gradient is not
    a NaN and one of the following holds: the build has no native half2
    primitives, the feature is positive, or the gradient is finite with a
    clear sign bit.  With [size = 0] nothing is launched.  The bound on
    [size] keeps [size + 7] within [int32], so that [Eigen::divup] does not
    wrap around. *)
Theorem ReluGrad_half_launcher_selects
        (GetGpuLaunchConfigFixedBlockSize : Z -> Z -> GpuLaunchConfig)
        (native : bool) (fuel : nat)
        (gradient_ptr feature_ptr backprop_ptr : Z)
        (gradient feature backprop : Z -> half) (size : Z) :
  let config :=
    GetGpuLaunchConfigFixedBlockSize (Int.divup size 2) kThreadInBlock in
  0 <= size <= 2 ^ 31 - 8 ->
  0 < block_count config -> 0 < thread_per_block config ->
  size / 2 + block_count config * thread_per_block config < 2 ^ 31 ->
  (Z.to_nat (size / 2) <= fuel)%nat ->
  exists ws,
    ReluGrad GetGpuLaunchConfigFixedBlockSize native fuel
             gradient_ptr feature_ptr backprop_ptr gradient feature size
    = Some ws
    /\ (size = 0 -> ws = [])
    /\ (forall j, ~ 0 <= j < size -> apply_stores ws backprop j = backprop j)
    /\ (forall j,
          0 <= j < size ->
          0 <= gradient j < 2 ^ 16 -> 0 <= feature j < 2 ^ 16 ->
          HalfClass.is_nan (gradient j) = false ->
          native = false \/ HalfClass.positive (feature j) = true
          \/ (HalfClass.is_special (gradient j) = false
              /\ gradient j < 2 ^ 15) ->
          apply_stores ws backprop j
          = if HalfClass.positive (feature j) then gradient j else 0).
Proof.
  intros config Hsize Hbc Htpb Hov Hfuel.
  unfold ReluGrad. rewrite i32_small by lia. fold config.
  destruct (Z.eqb_spec size 0) as [-> | Hnz].
  { exists []. split; [reflexivity|]. split; [reflexivity|].
    split; [reflexivity|]. intros j Hj. lia. }
  assert (Hc : 0 < size < 2 ^ 31) by lia.
  assert (Hfinish : forall (F : Z -> half) ws,
            (forall j, In j (map fst ws) <-> 0 <= j < size) ->
            (forall j v, In (j, v) ws -> v = F j) ->
            (forall j, F j = relu_grad_lane native (gradient j) (feature j)
                       \/ F j = relu_grad_scalar (gradient j) (feature j)) ->
            (forall j, ~ 0 <= j < size ->
                       apply_stores ws backprop j = backprop j)
            /\ (forall j,
                  0 <= j < size ->
                  0 <= gradient j < 2 ^ 16 -> 0 <= feature j < 2 ^ 16 ->
                  HalfClass.is_nan (gradient j) = false ->
                  native = false \/ HalfClass.positive (feature j) = true
                  \/ (HalfClass.is_special (gradient j) = false
                      /\ gradient j < 2 ^ 15) ->
                  apply_stores ws backprop j
                  = if HalfClass.positive (feature j) then gradient j
                    else 0)).
  { intros F ws Hin Hval HF. split.
    - intros j Hj. rewrite (apply_stores_determined F ws Hval).
      destruct (existsb (Z.eqb j) (map fst ws)) eqn:Hex; [|reflexivity].
      apply existsb_eqb_in in Hex. apply Hin in Hex. contradiction.
    - intros j Hj Hg Hf Hnan Hcond.
      rewrite (apply_stores_determined F ws Hval).
      assert (Hex : existsb (Z.eqb j) (map fst ws) = true)
        by (apply existsb_eqb_in, Hin; exact Hj).
      rewrite Hex.
      destruct (relu_grad_paths_select native _ _ Hg Hf Hnan Hcond)
        as (Hl & Hs).
      destruct (HF j) as [-> | ->]; assumption. }
  destruct (_ && _ && _).
  - destruct (vector_launch_geometry size ltac:(lia)) as (G1 & G2 & G3).
    destruct (vector_launch_spec native gradient feature size _
                kThreadInBlock Hc ltac:(reflexivity) G1 G2 G3)
      as (ws & E & Hin & Hval).
    exists ws. split; [exact E|]. split; [lia|].
    apply (Hfinish _ ws Hin Hval).
    intros j. unfold vector_result. destruct (_ <? _); auto.
  - destruct (paired_launch_spec native fuel gradient feature size
                (block_count config) (thread_per_block config)
                Hc Hbc Htpb Hov Hfuel) as (ws & E & _ & Hin & Hval).
    exists ws. split; [exact E|]. split; [lia|].
    apply (Hfinish _ ws Hin Hval).
    intros j. unfold paired_result. destruct (_ <? _); auto.
Qed.

Lemma ReluGrad_half_launcher_selects_witness :
  let cfg := fun work threads =>
               {| block_count := Int.divup work threads;
                  thread_per_block := threads |} in
  exists ws,
    ReluGrad cfg true 2 2 16 32 (fun _ => 0x3C00) (fun _ => 0xBC00) 5
    = Some ws
    /\ (5 = 0 -> ws = [])
    /\ (forall j, ~ 0 <= j < 5 ->
                  apply_stores ws (fun _ => 0x7E00) j = 0x7E00)
    /\ (forall j,
          0 <= j < 5 ->
          0 <= 0x3C00 < 2 ^ 16 -> 0 <= 0xBC00 < 2 ^ 16 ->
          HalfClass.is_nan 0x3C00 = false ->
          true = false \/ HalfClass.positive 0xBC00 = true
          \/ (HalfClass.is_special 0x3C00 = false /\ 0x3C00 < 2 ^ 15) ->
          apply_stores ws (fun _ => 0x7E00) j
          = if HalfClass.positive 0xBC00 then 0x3C00 else 0).
Proof.
  intros cfg.
  apply (ReluGrad_half_launcher_selects cfg true 2%nat 2 16 32
           (fun _ => 0x3C00) (fun _ => 0xBC00) (fun _ => 0x7E00) 5).
  - lia.
  - reflexivity.
  - reflexivity.
  - reflexivity.
  - vm_compute. apply le_n.
Defined.

End HalfPaths.

(** ** The vector kernel stores every element once *)

Section VectorOnce.

Import Half Gpu ReluGradHalf.

Lemma vector_thread_nodup (native : bool) (gradient feature : Z -> half)
      (count g b : Z) (t : thread) :
  0 < count < 2 ^ 31 -> g * b < 2 ^ 31 ->
  In t (threads g b) ->
  NoDup (map fst
           (match ReluGradHalfKernelVector native gradient feature count t
            with
            | Some ws => ws
            | None => []
            end)).
Proof.
  intros Hc Hsmall Ht.
  destruct (global_index_in_grid g b t Ht Hsmall) as (_ & Hidx & _).
  unfold ReluGradHalfKernelVector, VectorSizeElements.
  rewrite Z.quot_div_nonneg, Z.rem_mod_nonneg by lia.
  change (zrange (Z.quot 8 2)) with [0; 1; 2; 3].
  generalize (global_index t) Hidx. intros i Hi.
  cbn [flat_map]. unfold store_half2.
  assert (Hq : 0 <= count / 8) by (apply Z.div_pos; lia).
  destruct (Z.ltb_spec i (count / 8)) as [Hv | Hv];
    destruct (Z.ltb_spec i (count mod 8)) as [Hs | Hs];
    cbn [map fst app];
    repeat (constructor; [cbn [In]; lia|]); constructor.
Qed.

(** X10.  Launched on the grid its launcher computes, the vector kernel
    stores every offset of [[0, count)] exactly once and no other offset:
    the 128-bit stores of different threads do not overlap, and the
    left-over elements are stored by the first [count mod 8] threads after
    the last full vector.  [count + 7] fits [int32], as the launcher's
    [Eigen::divup] needs. *)
Theorem ReluGradHalfKernelVector_stores_each_index_once
        (native : bool) (gradient feature : Z -> half) (count : Z) :
  0 < count <= 2 ^ 31 - 8 ->
  exists ws,
    GpuLaunchKernel
      (ReluGradHalfKernelVector native gradient feature count)
      (Int.divup (Int.divup count VectorSizeElements) kThreadInBlock)
      kThreadInBlock = Some ws
    /\ NoDup (map fst ws)
    /\ (forall j, In j (map fst ws) <-> 0 <= j < count).
Proof.
  intros Hc8.
  assert (Hc : 0 < count < 2 ^ 31) by lia.
  destruct (vector_launch_geometry count Hc8) as (G1 & G2 & G3).
  remember (Int.divup (Int.divup count VectorSizeElements) kThreadInBlock)
    as g eqn:Hg.
  clear Hg.
  destruct (vector_launch_spec native gradient feature count g kThreadInBlock
              Hc ltac:(reflexivity) G1 G2 G3) as (ws & E & Hin & _).
  exists ws. split; [exact E|]. split; [|exact Hin].
  unfold GpuLaunchKernel in E.
  rewrite run_threads_defined in E.
  2:{ intros t Ht.
      destruct (vector_thread_spec native gradient feature count g
                  kThreadInBlock Hc G1 t Ht) as (w & Ew & _).
      now exists w. }
  match type of E with
  | Some ?l = _ => assert (Hws : ws = l) by congruence
  end.
  rewrite Hws. clear E Hws Hin.
  rewrite !flat_map_concat_map, concat_map, map_map.
  rewrite <- flat_map_concat_map.
  assert (Hq : 0 <= count / 8) by (apply Z.div_pos; lia).
  apply NoDup_flat_map_disjoint.
  - apply NoDup_threads.
  - intros t Ht.
    destruct (vector_thread_spec native gradient feature count g
                kThreadInBlock Hc G1 t Ht) as (w & Ew & _).
    now apply (vector_thread_nodup native gradient feature count g
                 kThreadInBlock t).
  - intros t1 t2 j Ht1 Ht2 Hj1 Hj2.
    destruct (vector_thread_spec native gradient feature count g
                kThreadInBlock Hc G1 t1 Ht1) as (w1 & E1 & Hin1 & _).
    destruct (vector_thread_spec native gradient feature count g
                kThreadInBlock Hc G1 t2 Ht2) as (w2 & E2 & Hin2 & _).
    cbv beta in Hj1, Hj2. rewrite E1 in Hj1. rewrite E2 in Hj2.
    apply Hin1 in Hj1. apply Hin2 in Hj2.
    destruct (global_index_in_grid g _ t1 Ht1 G1) as (_ & R1 & _).
    destruct (global_index_in_grid g _ t2 Ht2 G1) as (_ & R2 & _).
    apply (global_index_injective g kThreadInBlock); auto.
    lia.
Qed.

Lemma ReluGradHalfKernelVector_stores_each_index_once_witness :
  exists ws,
    GpuLaunchKernel
      (ReluGradHalfKernelVector true (fun _ => 0x3C00) (fun _ => 0x3C00) 11)
      (Int.divup (Int.divup 11 VectorSizeElements) kThreadInBlock)
      kThreadInBlock = Some ws
    /\ NoDup (map fst ws)
    /\ (forall j, In j (map fst ws) <-> 0 <= j < 11).
Proof.
  apply (ReluGradHalfKernelVector_stores_each_index_once
           true (fun _ => 0x3C00) (fun _ => 0x3C00) 11).
  lia.
Defined.

End VectorOnce.

(** ** The packed int8 ReLU: values *)

Section ReluInt8Values.

Import Gpu ReluInt8 ReluInt8Trace.

Lemma relu_word_eq_ref (w : Z) : Int8x4.relu_word w = Int8x4.relu_word_ref w.
Proof.
  unfold Int8x4.relu_word, Int8x4.relu_word_ref, Int8x4.pack. cbv zeta.
  f_equal. apply Z.bits_inj'. intros n Hn.
  destruct (Z.lt_ge_cases n 32) as [Hlt | Hge].
  - rewrite relu_word_ref_bits by lia. apply (relu_word_bits w n). lia.
  - rewrite relu_word_ref_high_bits by assumption.
    rewrite Z.land_spec, testbit_u32.
    replace (n <? 32) with false by (symmetry; apply Z.ltb_ge; lia).
    reflexivity.
Qed.

Lemma testbit_i32_low (z n : Z) :
  0 <= n < 32 -> Z.testbit (Int.i32 z) n = Z.testbit z n.
Proof.
  intros Hn.
  assert (H : Z.testbit (Int.u32 (Int.i32 z)) n = Z.testbit (Int.u32 z) n)
    by now rewrite u32_i32.
  rewrite !testbit_u32 in H.
  replace (n <? 32) with true in H by (symmetry; apply Z.ltb_lt; lia).
  exact H.
Qed.

Lemma relu_int8_range (b : Z) :
  0 <= b < 256 ->
  0 <= Int8x4.relu_int8 b <= 127
  /\ (Int8x4.relu_int8 b = 0 \/ Int8x4.relu_int8 b = b)
  /\ Int8x4.relu_int8 (Int8x4.relu_int8 b) = Int8x4.relu_int8 b.
Proof.
  intros Hb.
  unfold Int8x4.relu_int8, Int8x4.int8_of_byte, Int8x4.byte_of_int8.
  destruct (Z.ltb_spec b 128) as [Hlt | Hge].
  - rewrite Z.max_l by lia. rewrite (Z.mod_small b) by lia.
    destruct (Z.ltb_spec b 128); [|lia].
    rewrite Z.max_l by lia. rewrite (Z.mod_small b) by lia. lia.
  - rewrite Z.max_r by lia. change (0 mod 256) with 0. cbn. lia.
Qed.

(** Lane [k] of the lane-wise reference is the ReLU of lane [k]. *)
Lemma lane_relu_word_ref (w k : Z) :
  0 <= k < 4 ->
  Int8x4.lane (Int8x4.relu_word_ref w) k
  = Int8x4.relu_int8 (Int8x4.lane w k).
Proof.
  intros Hk. apply Z.bits_inj'. intros j Hj.
  rewrite lane_bits, relu_int8_lane_bits by lia.
  destruct (Z.leb_spec 0 j); [|lia].
  destruct (Z.ltb_spec j 8) as [Hj8 | Hj8]; cbn [andb]; [|reflexivity].
  unfold Int8x4.relu_word_ref, Int8x4.pack.
  rewrite testbit_i32_low by lia.
  rewrite relu_word_ref_bits by lia.
  replace (8 * ((j + 8 * k) / 8) + 7) with (7 + 8 * k) by div_lia.
  reflexivity.
Qed.

Lemma lane_of_packed_bytes (b0 b1 b2 b3 : Z) :
  0 <= b0 < 256 -> 0 <= b1 < 256 -> 0 <= b2 < 256 -> 0 <= b3 < 256 ->
  let w := Int.i32 (b0 + b1 * 2 ^ 8 + b2 * 2 ^ 16 + b3 * 2 ^ 24) in
  Int8x4.lane w 0 = b0 /\ Int8x4.lane w 1 = b1
  /\ Int8x4.lane w 2 = b2 /\ Int8x4.lane w 3 = b3.
Proof.
  intros H0 H1 H2 H3 w. unfold w, Int8x4.lane, Int.i32.
  change 0xFF with (Z.ones 8). rewrite !Z.land_ones by lia.
  rewrite !Z.shiftr_div_pow2 by lia.
  change (2 ^ (8 * 0)) with 1. change (2 ^ (8 * 1)) with 256.
  change (2 ^ (8 * 2)) with 65536. change (2 ^ (8 * 3)) with 16777216.
  change (2 ^ 8) with 256. change (2 ^ 16) with 65536.
  change (2 ^ 24) with 16777216. change (2 ^ 31) with 2147483648.
  change (2 ^ 32) with 4294967296.
  repeat split; div_lia.
Qed.

(** Lane [k] of a word of the [int32] view is byte [4 * index + k]. *)
Lemma lane_int32_view (bytes : Z -> Z) (index k : Z) :
  0 <= k < 4 ->
  Int8x4.lane (int32_view bytes index) k = bytes (4 * index + k) mod 256.
Proof.
  intros Hk. unfold int32_view.
  destruct (lane_of_packed_bytes
              (bytes (4 * index) mod 256) (bytes (4 * index + 1) mod 256)
              (bytes (4 * index + 2) mod 256) (bytes (4 * index + 3) mod 256))
    as (L0 & L1 & L2 & L3); try (apply Z.mod_pos_bound; lia).
  assert (Hcases : k = 0 \/ k = 1 \/ k = 2 \/ k = 3) by lia.
  destruct Hcases as [-> | [-> | [-> | ->]]]; auto.
  now rewrite Z.add_0_r.
Qed.

(** The indices a thread's grid-stride loop visits. *)
Lemma grid_stride_launch_partition (fuel : nat) (n g b : Z) :
  0 <= n -> 0 < g -> 0 < b -> n + g * b < 2 ^ 31 ->
  (Z.to_nat n <= fuel)%nat ->
  let visited t :=
    match grid_stride fuel (global_index t) (total_threads t) n with
    | Some (v, _) => v
    | None => []
    end in
  (forall t, In t (threads g b) ->
             exists v final,
               grid_stride fuel (global_index t) (total_threads t) n
               = Some (v, final))
  /\ NoDup (flat_map visited (threads g b))
  /\ (forall i, In i (flat_map visited (threads g b)) <-> 0 <= i < n).
Proof.
  intros Hn Hg Hb Hov Hfuel visited.
  assert (Hsmall : g * b < 2 ^ 31) by lia.
  assert (HT : 0 < g * b) by nia.
  assert (Hthread : forall t, In t (threads g b) ->
            exists v final,
              grid_stride fuel (global_index t) (total_threads t) n
              = Some (v, final)
              /\ NoDup v
              /\ forall i, In i v <->
                   global_index t <= i < n
                   /\ exists k, 0 <= k /\ i = global_index t + k * (g * b)).
  { intros t Ht.
    destruct (global_index_in_grid g b t Ht Hsmall) as (_ & Hidx & Htot).
    destruct (grid_stride_spec (g * b) n fuel HT ltac:(lia)
                (global_index t) ltac:(lia) ltac:(lia))
      as (v & final & Hrun & Hin & Hnd & _).
    exists v, final. rewrite Htot. auto. }
  assert (Hvis : forall t, In t (threads g b) ->
            NoDup (visited t)
            /\ forall i, In i (visited t) <->
                 global_index t <= i < n
                 /\ exists k, 0 <= k /\ i = global_index t + k * (g * b)).
  { intros t Ht. destruct (Hthread t Ht) as (v & final & E & H).
    unfold visited. rewrite E. exact H. }
  split; [|split].
  - intros t Ht. destruct (Hthread t Ht) as (v & final & E & _). eauto.
  - apply NoDup_flat_map_disjoint.
    + apply NoDup_threads.
    + intros t Ht. apply (Hvis t Ht).
    + intros t1 t2 i Ht1 Ht2 H1 H2.
      apply (Hvis t1 Ht1) in H1. apply (Hvis t2 Ht2) in H2.
      destruct H1 as (_ & k1 & Hk1 & E1). destruct H2 as (_ & k2 & Hk2 & E2).
      destruct (global_index_in_grid g b t1 Ht1 Hsmall) as (_ & R1 & _).
      destruct (global_index_in_grid g b t2 Ht2 Hsmall) as (_ & R2 & _).
      apply (global_index_injective g b); auto.
      assert (Hd : (k1 - k2) * (g * b)
                   = global_index t2 - global_index t1) by lia.
      assert (k1 - k2 = 0) by nia. lia.
  - intros i. rewrite in_flat_map. split.
    + intros (t & Ht & Hi). apply (Hvis t Ht) in Hi.
      destruct (global_index_in_grid g b t Ht Hsmall) as (_ & R & _). lia.
    + intros Hi.
      pose proof (Z.mod_pos_bound i (g * b) HT) as Hmod.
      destruct (thread_of_global_index g b (i mod (g * b)))
        as (t & Ht & Hgi); auto.
      exists t. split; [exact Ht|]. apply (Hvis t Ht). rewrite Hgi. split.
      * pose proof (Z.mod_le i (g * b)). lia.
      * exists (i / (g * b)). split; [apply Z.div_pos; lia|].
        pose proof (Z.div_mod i (g * b)). lia.
Qed.

Lemma flat_map_ext_on {A B : Type} (f g : A -> list B) (l : list A) :
  (forall a, In a l -> f a = g a) -> flat_map f l = flat_map g l.
Proof.
  induction l as [|a l IH]; intros H; cbn; [reflexivity|].
  rewrite (H a) by now left.
  rewrite IH by (intros a' Ha'; apply H; now right). reflexivity.
Qed.

Lemma stores_of_flat_map {A : Type} (f : A -> list access) (l : list A) :
  stores_of (flat_map f l) = flat_map (fun a => stores_of (f a)) l.
Proof.
  unfold stores_of. induction l as [|a l IH]; cbn; [reflexivity|].
  now rewrite flat_map_app, IH.
Qed.

Lemma stores_of_body (F : Z -> Z) (v : list Z) :
  stores_of (flat_map (fun index => [Load index; Store index (F index)]) v)
  = map (fun index => (index, F index)) v.
Proof.
  unfold stores_of. induction v as [|i v IH]; cbn; [reflexivity|].
  now f_equal.
Qed.

(** X11.  The int8 launcher stores every word index below
    [ceil(count / 4)] exactly once, in both build branches, and the word
    stored at index [i] is the lane-wise ReLU of the input word: its byte
    [k] is [max(b, 0)] of input byte [4 * i + k] read as a signed 8-bit
    integer.  [count + 3] fits [int32], as the launcher's [Eigen::divup]
    needs. *)
Theorem Relu_int8_stores
        (GetGpuLaunchConfigFixedBlockSize : Z -> Z -> GpuLaunchConfig)
        (google_cuda : bool) (fuel : nat) (input : Z -> Z) (count : Z) :
  let vect_count := Int.divup count 4 in
  let config := GetGpuLaunchConfigFixedBlockSize vect_count kThreadInBlock in
  0 < count <= 2 ^ 31 - 4 ->
  0 < block_count config -> 0 < thread_per_block config ->
  vect_count + block_count config * thread_per_block config < 2 ^ 31 ->
  (Z.to_nat vect_count <= fuel)%nat ->
  exists trace,
    Relu GetGpuLaunchConfigFixedBlockSize google_cuda fuel input count
    = Some trace
    /\ NoDup (map fst (stores_of trace))
    /\ (forall i, In i (map fst (stores_of trace)) <-> 0 <= i < vect_count)
    /\ (forall i v, In (i, v) (stores_of trace) ->
          v = Int8x4.relu_word_ref (int32_view input i)
          /\ forall k, 0 <= k < 4 ->
               Int8x4.lane v k
               = Int8x4.relu_int8 (input (4 * i + k) mod 256)).
Proof.
  intros vect_count config Hc Hbc Htpb Hov Hfuel.
  assert (Hvn : 0 <= vect_count).
  { unfold vect_count. rewrite divup_small by lia.
    apply Z.div_pos; lia. }
  destruct (grid_stride_launch_partition fuel vect_count
              (block_count config) (thread_per_block config)
              Hvn Hbc Htpb Hov Hfuel) as (Hterm & Hnd & Hin).
  set (F := fun index =>
              if google_cuda then __vmaxs4 (int32_view input index) 0
              else Int8x4.relu_word (int32_view input index)).
  assert (HF : forall i, F i = Int8x4.relu_word_ref (int32_view input i)).
  { intros i. unfold F. destruct google_cuda.
    - apply vmaxs4_zero.
    - apply relu_word_eq_ref. }
  unfold Relu. rewrite i32_small by lia.
  destruct (Z.eqb_spec count 0) as [Hz | _]; [lia|].
  fold vect_count. fold config. unfold GpuLaunchKernel.
  rewrite run_threads_defined.
  2:{ intros t Ht. destruct (Hterm t Ht) as (v & final & E).
      unfold Relu_int8x4_kernel. rewrite E. eauto. }
  eexists. split; [reflexivity|].
  rewrite stores_of_flat_map.
  assert (Hshape : forall t, In t (threads (block_count config)
                                           (thread_per_block config)) ->
            stores_of
              (match Relu_int8x4_kernel google_cuda fuel vect_count
                       (int32_view input) t with
               | Some ws => ws
               | None => []
               end)
            = map (fun index => (index, F index))
                  (match grid_stride fuel (global_index t) (total_threads t)
                           vect_count with
                   | Some (v, _) => v
                   | None => []
                   end)).
  { intros t Ht. destruct (Hterm t Ht) as (v & final & E).
    unfold Relu_int8x4_kernel. rewrite E. apply (stores_of_body F). }
  rewrite (flat_map_ext_on _ _ _ Hshape).
  assert (Hfst : map fst
                   (flat_map
                      (fun t =>
                         map (fun index => (index, F index))
                             (match grid_stride fuel (global_index t)
                                      (total_threads t) vect_count with
                              | Some (v, _) => v
                              | None => []
                              end))
                      (threads (block_count config) (thread_per_block config)))
                 = flat_map
                     (fun t =>
                        match grid_stride fuel (global_index t)
                                (total_threads t) vect_count with
                        | Some (v, _) => v
                        | None => []
                        end)
                     (threads (block_count config) (thread_per_block config))).
  { rewrite !flat_map_concat_map, concat_map, map_map.
    f_equal. apply map_ext. intros t. rewrite map_map. cbn [fst].
    apply map_id. }
  rewrite Hfst. split; [exact Hnd|]. split; [exact Hin|].
  intros i v Hiv. apply in_flat_map in Hiv. destruct Hiv as (t & _ & Hiv).
  apply in_map_iff in Hiv. destruct Hiv as (i' & Heq & _).
  apply pair_equal_spec in Heq. destruct Heq as [-> <-].
  rewrite HF. split; [reflexivity|].
  intros k Hk. rewrite lane_relu_word_ref by lia.
  now rewrite lane_int32_view.
Qed.

Lemma Relu_int8_stores_witness :
  let cfg := fun work threads =>
               {| block_count := Int.divup work threads;
                  thread_per_block := threads |} in
  exists trace,
    Relu cfg false 2 (fun _ => 0x85) 6 = Some trace
    /\ NoDup (map fst (stores_of trace))
    /\ (forall i, In i (map fst (stores_of trace)) <->
                  0 <= i < Int.divup 6 4)
    /\ (forall i v, In (i, v) (stores_of trace) ->
          v = Int8x4.relu_word_ref (int32_view (fun _ => 0x85) i)
          /\ forall k, 0 <= k < 4 ->
               Int8x4.lane v k = Int8x4.relu_int8 (0x85 mod 256)).
Proof.
  intros cfg.
  apply (Relu_int8_stores cfg false 2%nat (fun _ => 0x85) 6).
  - lia.
  - reflexivity.
  - reflexivity.
  - reflexivity.
  - vm_compute. apply le_n.
Defined.

(** X12.  The word-level ReLU is idempotent; its result is a non-negative
    [int32] whose four lanes are between 0 and 127, each either 0 or the
    input lane. *)
Theorem relu_word_idempotent_and_range (w : Z) :
  Int8x4.relu_word (Int8x4.relu_word w) = Int8x4.relu_word w
  /\ 0 <= Int8x4.relu_word w < 2 ^ 31
  /\ (forall k, 0 <= k < 4 ->
        0 <= Int8x4.lane (Int8x4.relu_word w) k <= 127
        /\ (Int8x4.lane (Int8x4.relu_word w) k = 0
            \/ Int8x4.lane (Int8x4.relu_word w) k = Int8x4.lane w k)).
Proof.
  assert (Hlane : forall u k, 0 <= k < 4 ->
            Int8x4.lane (Int8x4.relu_word u) k
            = Int8x4.relu_int8 (Int8x4.lane u k)).
  { intros u k Hk. rewrite relu_word_eq_ref. now apply lane_relu_word_ref. }
  split; [|split].
  - rewrite (relu_word_eq_ref (Int8x4.relu_word w)).
    rewrite (relu_word_eq_ref w) at 2.
    unfold Int8x4.relu_word_ref at 1 2.
    rewrite !Hlane by lia.
    now rewrite !(proj2 (proj2 (relu_int8_range _ (lane_range _ _)))).
  - unfold Int8x4.relu_word. cbv zeta.
    match goal with
    | |- 0 <= Int.i32 ?X < _ =>
        assert (HX : 0 <= X < 2 ^ 31); [|rewrite i32_small; lia]
    end.
    match goal with
    | |- 0 <= ?X < _ =>
        assert (Hnn : 0 <= X)
          by (apply Z.land_nonneg; left; apply u32_range);
        assert (Hlow : X = X mod 2 ^ 31)
    end.
    { rewrite <- Z.land_ones by lia. apply Z.bits_inj'. intros n Hn.
      rewrite (Z.land_spec _ (Z.ones 31)).
      destruct (Z.lt_ge_cases n 31) as [Hlt | Hge].
      - rewrite Z.ones_spec_low by lia. now rewrite andb_true_r.
      - rewrite Z.ones_spec_high by lia. rewrite andb_false_r.
        rewrite Z.land_spec, (Z.land_spec _ 0x7f7f7f7f).
        replace (Z.testbit 0x7f7f7f7f n) with false.
        + now rewrite !andb_false_r.
        + symmetry. apply Z.bits_above_log2; [lia|].
          change (Z.log2 0x7f7f7f7f) with 30. lia. }
    rewrite Hlow. split; [lia|]. apply Z.mod_pos_bound. lia.
  - intros k Hk. rewrite Hlane by lia.
    destruct (relu_int8_range _ (lane_range w k)) as (Hr & Hsel & _).
    split; [exact Hr | exact Hsel].
Qed.

End ReluInt8Values.

(** ** One element per thread: the Quant8 kernels *)

Section ElementwiseLaunch.

Import Gpu Quant8.

(** A kernel of the shape
    [i = threadIdx.x + blockIdx.x * blockDim.x; if (i >= count) return;
     out[i] = F(i);]
    on a grid of at least [count] threads. *)
Lemma elementwise_launch_spec {A : Type}
      (kernel : thread -> option (list (store A))) (F : Z -> A)
      (count g b : Z) :
  (forall t, kernel t
             = let i := Int.i32 (threadIdx_x t + blockIdx_x t * blockDim_x t) in
               if i >=? count then Some [] else Some [(i, F i)]) ->
  0 < b -> count <= g * b -> g * b < 2 ^ 31 ->
  exists ws,
    GpuLaunchKernel kernel g b = Some ws
    /\ NoDup (map fst ws)
    /\ (forall j, In j (map fst ws) <-> 0 <= j < count)
    /\ (forall j v, In (j, v) ws -> v = F j).
Proof.
  intros Hk Hb Hcover Hsmall.
  set (W := fun t => if global_index t >=? count then []
                     else [(global_index t, F (global_index t))]).
  assert (HK : forall t, kernel t = Some (W t)).
  { intros t. rewrite Hk. cbv zeta. unfold W, global_index.
    rewrite (Z.add_comm (threadIdx_x t)). now destruct (_ >=? _). }
  exists (flat_map W (threads g b)).
  split; [apply run_threads_flat_map; intros; apply HK|].
  assert (HW : forall t j v, In (j, v) (W t) <->
                             j = global_index t /\ j < count /\ v = F j).
  { intros t j v. unfold W.
    destruct (Z.geb_spec (global_index t) count) as [Hge | Hlt]; cbn [In].
    - split; [intros [] | lia].
    - split.
      + intros [Heq | []]. apply pair_equal_spec in Heq.
        destruct Heq as [<- <-]. auto.
      + intros (-> & _ & ->). now left. }
  assert (HWi : forall t j, In j (map fst (W t)) <->
                            j = global_index t /\ j < count).
  { intros t j. rewrite in_map_iff. split.
    - intros ([j' v] & Hj & Hin). cbn in Hj. subst j'.
      apply HW in Hin. tauto.
    - intros (Hj & Hlt). exists (j, F j). split; [reflexivity|].
      apply HW. auto. }
  assert (Hmap : map fst (flat_map W (threads g b))
                 = flat_map (fun t => map fst (W t)) (threads g b)).
  { rewrite !flat_map_concat_map, concat_map, map_map. reflexivity. }
  rewrite Hmap. split; [|split].
  - apply NoDup_flat_map_disjoint.
    + apply NoDup_threads.
    + intros t _. unfold W. destruct (_ >=? _); cbn; repeat constructor.
      intros [].
    + intros t1 t2 j Ht1 Ht2 H1 H2. apply HWi in H1. apply HWi in H2.
      apply (global_index_injective g b); auto. lia.
  - intros j. rewrite in_flat_map. split.
    + intros (t & Ht & Hj). apply HWi in Hj.
      destruct (global_index_in_grid g b t Ht Hsmall) as (_ & R & _). lia.
    + intros Hj.
      destruct (thread_of_global_index g b j) as (t & Ht & Hgi); auto;
        [lia|].
      exists t. split; [exact Ht|]. apply HWi. lia.
  - intros j v Hjv. apply in_flat_map in Hjv. destruct Hjv as (t & _ & Hjv).
    apply HW in Hjv. tauto.
Qed.

(** The grid [(count + 255) / 256] of the Quant8 and Gelu launchers. *)
Lemma block256_grid_covers (count : Z) :
  0 < count <= 2 ^ 31 - 256 ->
  count <= Z.quot (count + 256 - 1) 256 * 256
  /\ Z.quot (count + 256 - 1) 256 * 256 < count + 256
  /\ Z.quot (count + 256 - 1) 256 * 256 < 2 ^ 31.
Proof.
  intros Hc. rewrite Z.quot_div_nonneg by lia.
  change (2 ^ 31) with 2147483648 in *. div_lia.
Qed.

(** X13.  [Quant8Bwd] is the identity on the tensor: after the call every
    offset below [size] of the output holds the input element, every other
    offset is untouched, and no offset is stored twice.  The bound on
    [size] keeps [count + 255] within [int32]. *)
Theorem Quant8Bwd_copies (input output : Z -> Z) (size : Z) :
  0 <= size <= 2 ^ 31 - 256 ->
  exists ws,
    Quant8Backward.Quant8Bwd input size = Some ws
    /\ NoDup (map fst ws)
    /\ (forall j, In j (map fst ws) <-> 0 <= j < size)
    /\ forall j,
         apply_stores ws output j
         = if (0 <=? j) && (j <? size) then input j else output j.
Proof.
  intros Hsize. unfold Quant8Backward.Quant8Bwd.
  change (2 ^ 31) with 2147483648 in Hsize.
  rewrite i32_small by (change (2 ^ 31) with 2147483648; lia).
  destruct (Z.eqb_spec size 0) as [-> | Hnz].
  { exists []. split; [reflexivity|]. split; [constructor|].
    split; [intros j; cbn; lia|].
    intros j. cbn [apply_stores].
    destruct (0 <=? j) eqn:E0; cbn [andb]; [|reflexivity].
    destruct (Z.ltb_spec j 0); [apply Z.leb_le in E0; lia | reflexivity]. }
  rewrite i32_small by (change (2 ^ 31) with 2147483648; lia).
  destruct (block256_grid_covers size
              ltac:(change (2 ^ 31) with 2147483648; lia))
    as (G1 & G2 & G3).
  destruct (elementwise_launch_spec (Quant8BwdKernel input size) input size
              (Z.quot (size + 256 - 1) 256) 256)
    as (ws & E & Hnd & Hin & Hval); auto; [reflexivity|].
  exists ws. split; [exact E|]. split; [exact Hnd|]. split; [exact Hin|].
  intros j. rewrite (apply_stores_determined input ws Hval).
  destruct (existsb (Z.eqb j) (map fst ws)) eqn:Hex.
  - apply existsb_eqb_in in Hex. apply Hin in Hex.
    destruct (Z.leb_spec 0 j); [|lia].
    destruct (Z.ltb_spec j size); [reflexivity | lia].
  - destruct (Z.leb_spec 0 j); cbn [andb]; [|reflexivity].
    destruct (Z.ltb_spec j size); [|reflexivity].
    assert (Hj : In j (map fst ws)) by (apply Hin; lia).
    apply existsb_eqb_in in Hj. congruence.
Qed.

Lemma Quant8Bwd_copies_witness :
  exists ws,
    Quant8Backward.Quant8Bwd (fun i => 100 + i) 300 = Some ws
    /\ NoDup (map fst ws)
    /\ (forall j, In j (map fst ws) <-> 0 <= j < 300)
    /\ forall j,
         apply_stores ws (fun _ => 0) j
         = if (0 <=? j) && (j <? 300) then 100 + j else 0.
Proof.
  apply (Quant8Bwd_copies (fun i => 100 + i) (fun _ => 0) 300). lia.
Defined.

Context {impl : hip_f8_impl}.

(** X14.  The (5,2) and (4,3) specialisations of the forward kernel, on
    the grid [(count + 255) / 256] of 256-thread blocks, store to every
    index below [count] exactly once the decoding of the 8-bit encoding of
    the input element, and store nowhere else; in round-to-nearest mode the
    random word passed to the encoder is 0, whatever the seed. *)
Theorem Quant8Fwd_specialisations_store
        (T : scalar_type) (input : Z -> Z) (count exp_low_cutoff : Z)
        (stoch : bool) (seed : Z) :
  0 < count <= 2 ^ 31 - 256 ->
  (exists ws,
      GpuLaunchKernel
        (Quant8FwdKernel_52 T input count exp_low_cutoff stoch seed)
        (Z.quot (count + 256 - 1) 256) 256 = Some ws
      /\ NoDup (map fst ws)
      /\ (forall j, In j (map fst ws) <-> 0 <= j < count)
      /\ (forall j v, In (j, v) ws ->
            v = cast_from_f8 2 5 T false
                  (cast_to_f8 2 5 T false true stoch (input j)
                     (if stoch then rng_52 T (input j) j seed else 0)
                   mod 2 ^ 8)))
  /\ (exists ws,
         GpuLaunchKernel
           (Quant8FwdKernel_43 T input count exp_low_cutoff stoch seed)
           (Z.quot (count + 256 - 1) 256) 256 = Some ws
         /\ NoDup (map fst ws)
         /\ (forall j, In j (map fst ws) <-> 0 <= j < count)
         /\ (forall j v, In (j, v) ws ->
               v = cast_from_f8 3 4 T false
                     (cast_to_f8 3 4 T false true stoch (input j)
                        (if stoch then rng_43 T (input j) j seed else 0)
                      mod 2 ^ 8))).
Proof.
  intros Hc. destruct (block256_grid_covers count Hc) as (G1 & G2 & G3).
  split.
  - apply elementwise_launch_spec; auto; [|reflexivity].
    intros t. unfold Quant8FwdKernel_52. cbv zeta.
    destruct (_ >=? _); [reflexivity|]. now destruct stoch.
  - apply elementwise_launch_spec; auto; [|reflexivity].
    intros t. unfold Quant8FwdKernel_43. cbv zeta.
    destruct (_ >=? _); [reflexivity|]. now destruct stoch.
Qed.

End ElementwiseLaunch.

Lemma Quant8Fwd_specialisations_store_witness :
  (exists ws,
      Gpu.GpuLaunchKernel
        (Quant8.Quant8FwdKernel_52 (impl := SampleCasts.low_bits_casts)
           Quant8.Half (fun i => i) 3 9 true 7)
        (Z.quot (3 + 256 - 1) 256) 256 = Some ws
      /\ NoDup (map fst ws)
      /\ (forall j, In j (map fst ws) <-> 0 <= j < 3)
      /\ (forall j v, In (j, v) ws ->
            v = @Quant8.cast_from_f8 SampleCasts.low_bits_casts 2 5 Quant8.Half false
                  (@Quant8.cast_to_f8 SampleCasts.low_bits_casts 2 5 Quant8.Half false true true j
                     (if true then Quant8.rng_52 Quant8.Half j j 7 else 0)
                   mod 2 ^ 8)))
  /\ (exists ws,
         Gpu.GpuLaunchKernel
           (Quant8.Quant8FwdKernel_43 (impl := SampleCasts.low_bits_casts)
              Quant8.Half (fun i => i) 3 9 true 7)
           (Z.quot (3 + 256 - 1) 256) 256 = Some ws
         /\ NoDup (map fst ws)
         /\ (forall j, In j (map fst ws) <-> 0 <= j < 3)
         /\ (forall j v, In (j, v) ws ->
               v = @Quant8.cast_from_f8 SampleCasts.low_bits_casts 3 4 Quant8.Half false
                     (@Quant8.cast_to_f8 SampleCasts.low_bits_casts 3 4 Quant8.Half false true true j
                        (if true then Quant8.rng_43 Quant8.Half j j 7 else 0)
                      mod 2 ^ 8))).
Proof.
  apply (Quant8Fwd_specialisations_store
           (impl := SampleCasts.low_bits_casts)
           Quant8.Half (fun i => i) 3 9 true 7).
  lia.
Defined.

(** ** The Quant8 forward launcher on supported pairs, and the random word *)

Section Quant8More.

Import Gpu Quant8.

Lemma supported_true_cases (W1 W2 : Z) :
  supported W1 W2 = true ->
  (W1 = 4 \/ W1 = 5 \/ W1 = 8) /\ (W2 = 1 \/ W2 = 2 \/ W2 = 3).
Proof.
  unfold supported. intros H.
  apply andb_prop in H. destruct H as [H1 H2].
  apply orb_prop in H1. apply orb_prop in H2.
  split.
  - destruct H1 as [H1 | H1]; [apply orb_prop in H1; destruct H1 as [H1 | H1]|];
      apply Z.eqb_eq in H1; auto.
  - destruct H2 as [H2 | H2]; [apply orb_prop in H2; destruct H2 as [H2 | H2]|];
      apply Z.eqb_eq in H2; auto.
Qed.

(** X15.  For a supported pair and a non-empty tensor the launcher prints
    no error line and launches the generic kernel instantiated at
    [(W1, W2)], except that for the 16-bit type [W1 = 8] selects [we = 5];
    the grid of 256-thread blocks covers [count] with fewer than 256 spare
    threads; the cutoff passed is [2^(W-1) - 2^(W1-1) + 1] with [W] the
    exponent width of [T] and [W1] as given (not the aliased width). *)
Theorem Quant8Fwd_supported_pair
        (T : scalar_type) (warn_count size W1 W2 : Z)
        (stoch dynamic : bool) :
  supported W1 W2 = true ->
  0 < Int.i32 size <= 2 ^ 31 - 256 ->
  exists l,
    launched (Quant8Fwd T warn_count size W1 W2 stoch dynamic) = Some l
    /\ op_we l = (if (W1 =? 8) && (sizeof T =? 2) then 5 else W1)
    /\ op_wm l = W2
    /\ block l = 256
    /\ Int.i32 size <= grid l * block l < Int.i32 size + 256
    /\ args l = [ArgInput; ArgOutput; ArgInt (Int.i32 size);
                 ArgInt (2 ^ ((if sizeof T =? 4 then 8 else 5) - 1)
                         - 2 ^ (W1 - 1) + 1);
                 ArgBool stoch]
    /\ ~ In error_W1_W2
            (printed (Quant8Fwd T warn_count size W1 W2 stoch dynamic))
    /\ ~ In error_W1
            (printed (Quant8Fwd T warn_count size W1 W2 stoch dynamic)).
Proof.
  intros Hsup Hsize.
  apply supported_true_cases in Hsup. destruct Hsup as [H1 H2].
  destruct (block256_grid_covers (Int.i32 size) Hsize) as (G1 & G2 & _).
  rewrite <- (i32_small (Int.i32 size + 256 - 1)) in G1, G2 by lia.
  assert (Hnz : (Int.i32 size =? 0) = false) by (apply Z.eqb_neq; lia).
  unfold Quant8Fwd. rewrite Hnz.
  assert (Hwarn : forall w : list string,
            (w = [] \/ w = [warning_float]) ->
            ~ In error_W1_W2 (w ++ []) /\ ~ In error_W1 (w ++ [])).
  { intros w [-> | ->]; cbn; split; intros H; try tauto;
      destruct H as [H | []]; discriminate H. }
  assert (Hw : forall wc : Z,
            (match T with
             | Half => []
             | Float =>
                 if match T with
                    | Half => wc
                    | Float => Int.i32 (wc + 1)
                    end <? 10
                 then [warning_float] else []
             end = [] \/
             match T with
             | Half => []
             | Float =>
                 if match T with
                    | Half => wc
                    | Float => Int.i32 (wc + 1)
                    end <? 10
                 then [warning_float] else []
             end = [warning_float])).
  { intros wc. destruct T; [now left|]. destruct (_ <? 10); auto. }
  destruct H1 as [-> | [-> | ->]]; destruct H2 as [-> | [-> | ->]];
    destruct T; cbn [Z.eqb Pos.eqb sizeof andb orb fst snd launched printed
                     op_we op_wm grid block args];
    eexists; (split; [reflexivity|]);
    (split; [reflexivity|]); (split; [reflexivity|]);
    (split; [reflexivity|]); (split; [split; [exact G1 | exact G2]|]);
    (split; [reflexivity|]);
    apply Hwarn; try (now left); destruct (_ <? 10); auto.
Qed.

Lemma Quant8Fwd_supported_pair_witness :
  exists l,
    launched (Quant8Fwd Half 0 1000 8 2 true false) = Some l
    /\ op_we l = (if (8 =? 8) && (sizeof Half =? 2) then 5 else 8)
    /\ op_wm l = 2
    /\ block l = 256
    /\ Int.i32 1000 <= grid l * block l < Int.i32 1000 + 256
    /\ args l = [ArgInput; ArgOutput; ArgInt (Int.i32 1000);
                 ArgInt (2 ^ ((if sizeof Half =? 4 then 8 else 5) - 1)
                         - 2 ^ (8 - 1) + 1);
                 ArgBool true]
    /\ ~ In error_W1_W2 (printed (Quant8Fwd Half 0 1000 8 2 true false))
    /\ ~ In error_W1 (printed (Quant8Fwd Half 0 1000 8 2 true false)).
Proof.
  apply (Quant8Fwd_supported_pair Half 0 1000 8 2 true false).
  - reflexivity.
  - vm_compute. split; [reflexivity | discriminate].
Defined.

Lemma lxor_u32_closed (a b : Z) :
  Int.u32 a = a -> Int.u32 b = b -> Int.u32 (Z.lxor a b) = Z.lxor a b.
Proof. intros Ha Hb. now rewrite u32_lxor, Ha, Hb. Qed.

Lemma lxor_cancel_l (a s1 s2 : Z) : Z.lxor a s1 = Z.lxor a s2 -> s1 = s2.
Proof.
  intros H. apply (f_equal (Z.lxor a)) in H.
  now rewrite <- !Z.lxor_assoc, Z.lxor_nilpotent, !Z.lxor_0_l in H.
Qed.

(** X16.  In each of the three forward kernels the random word of an
    element is a 32-bit value, and it is the seed XORed with a word that
    depends only on the element and its index: for a fixed element two
    different seeds always give two different random words. *)
Theorem Quant8_rng_seed_mask (T : scalar_type) (x i seed : Z) :
  0 <= seed < 2 ^ 32 ->
  (0 <= rng_generic T x i seed < 2 ^ 32
   /\ rng_generic T x i seed = Z.lxor (rng_generic T x i 0) seed)
  /\ (0 <= rng_52 T x i seed < 2 ^ 32
      /\ rng_52 T x i seed = Z.lxor (rng_52 T x i 0) seed)
  /\ (0 <= rng_43 T x i seed < 2 ^ 32
      /\ rng_43 T x i seed = Z.lxor (rng_43 T x i 0) seed)
  /\ (forall seed', rng_generic T x i seed = rng_generic T x i seed' ->
                    seed = seed')
  /\ (forall seed', rng_43 T x i seed = rng_43 T x i seed' -> seed = seed').
Proof.
  intros Hseed.
  assert (Hclosed : forall d,
            Int.u32 (Z.lxor (Z.lxor (Z.lxor (Int.u32 d) 0x13371337)
                                    (Int.u32 (Int.i32 (i * 229791)))) seed)
            = Z.lxor (Z.lxor (Z.lxor (Int.u32 d) 0x13371337)
                             (Int.u32 (Int.i32 (i * 229791)))) seed).
  { intros d. repeat apply lxor_u32_closed;
      try apply u32_idempotent; try reflexivity.
    apply u32_small. exact Hseed. }
  assert (Hrange : forall d,
            0 <= Z.lxor (Z.lxor (Z.lxor (Int.u32 d) 0x13371337)
                                (Int.u32 (Int.i32 (i * 229791)))) seed
            < 2 ^ 32).
  { intros d. rewrite <- Hclosed. apply u32_range. }
  split; [|split; [|split; [|split]]].
  - split; [apply Hrange|]. unfold rng_generic. cbv zeta.
    now rewrite Z.lxor_0_r.
  - split; [apply Hrange|]. unfold rng_52. cbv zeta.
    now rewrite Z.lxor_0_r.
  - split; [apply Hrange|]. unfold rng_43. cbv zeta.
    now rewrite Z.lxor_0_r.
  - intros seed'. unfold rng_generic. cbv zeta. apply lxor_cancel_l.
  - intros seed'. unfold rng_43. cbv zeta. apply lxor_cancel_l.
Qed.

Lemma Quant8_rng_seed_mask_witness :
  0 <= rng_generic Float 0x3F800000 5 0x1234 < 2 ^ 32
  /\ rng_generic Float 0x3F800000 5 0x1234
     = Z.lxor (rng_generic Float 0x3F800000 5 0) 0x1234.
Proof.
  apply (proj1 (Quant8_rng_seed_mask Float 0x3F800000 5 0x1234 ltac:(lia))).
Defined.

End Quant8More.
